(** * react-app-guide: the StepTour navigation machine and the HighlightTour
      placement and keyboard handling, embedded from
      [src/StepTour.tsx] and [src/HighlightTour.tsx].

    The two React function components are embedded with their hooks made
    explicit: [useState] cells and [useRef] cells are fields of a record,
    [useMemo] and [useEffect] keep the dependency array of their last run,
    a render produces the values the closures of that render capture, and
    the effects of a commit run in declaration order.  User callbacks
    ([onEnter], [onNext], [onClose]) are opaque: invoking one appends its
    name to a log.  [open] is a prop: only the parent can lower it, so an
    event carries the props the parent renders next.

    The scroll lock of StepTour (lines 115-123) and the lookup of the
    target element and the tracking of its rectangle in HighlightTour
    (lines 65-128) are embedded on their own, in the modules [ScrollLock]
    and [Overlay].  Left out: labels, class names and the markup. *)

From Stdlib Require Import ZArith List String Bool Lia QArith Qminmax Lqa.
Import ListNotations.
Open Scope Z_scope.

(** ** Data model *)

(** A callback of the caller, identified by a name; a call is logged. *)
Definition Callback := string.

(** [TourStep] (StepTour.tsx, lines 8-18).  The three optional label
    strings are display-only and left out. *)
Module TourStep.
Record t := mk {
  id : string;
  selector : string;
  title : string;
  description : string;
  onEnter : option Callback;
  onNext : option Callback
}.
End TourStep.

(** [TourIntro] (lines 20-28).  [ref] is the identity of the object, which
    is what the dependency array of an effect compares ([Object.is]). *)
Module TourIntro.
Record t := mk {
  ref : nat;
  title : string;
  description : string;
  onNext : option Callback;
  onEnter : option Callback;
  onClose : option Callback
}.
End TourIntro.

(** [TourOutro] (lines 30-38). *)
Module TourOutro.
Record t := mk {
  title : string;
  description : string;
  onNext : option Callback;
  onEnter : option Callback;
  onClose : option Callback
}.
End TourOutro.

(** [StepTourProps] (lines 53-69), without the rendering hooks
    ([renderActions], [classNames]). *)
Record StepTourProps := mkProps {
  open : bool;
  steps : list TourStep.t;
  onClose : option Callback;
  intro : option TourIntro.t;
  outro : option TourOutro.t
}.

(** [arr[i]] on a JavaScript array: [undefined] out of range. *)
Definition at_index {A} (arr : list A) (i : Z) : option A :=
  if i <? 0 then None else nth_error arr (Z.to_nat i).

Definition len {A} (arr : list A) : Z := Z.of_nat (List.length arr).

(** ** Hooks of one mounted StepTour *)

Record Hooks := mkHooks {
  index : Z;                         (* useState(0), line 72 *)
  showIntro : bool;                  (* useState(false), line 73 *)
  showOutro : bool;                  (* useState(false), line 74 *)
  introShownRef : bool;              (* useRef(false), line 75 *)
  stepsRef : list TourStep.t;        (* useRef(steps), line 76 *)
  memo_current : option ((bool * bool * Z) * option TourStep.t);
                                     (* useMemo cache, lines 125-128 *)
  deps_reset : option (bool * Z * Z);          (* effect of lines 83-88 *)
  deps_open : option (bool * option nat);      (* effect of lines 90-108 *)
  deps_enter : option (Z * bool * bool);       (* effect of lines 110-113 *)
  log : list Callback                (* the callbacks invoked so far *)
}.

Definition setIndex (v : Z) (h : Hooks) : Hooks :=
  mkHooks v (showIntro h) (showOutro h) (introShownRef h) (stepsRef h)
          (memo_current h) (deps_reset h) (deps_open h) (deps_enter h) (log h).

(** [setIndex((prev) => ...)]: the updater is applied to the queued value. *)
Definition updateIndex (u : Z -> Z) (h : Hooks) : Hooks :=
  setIndex (u (index h)) h.

Definition setShowIntro (v : bool) (h : Hooks) : Hooks :=
  mkHooks (index h) v (showOutro h) (introShownRef h) (stepsRef h)
          (memo_current h) (deps_reset h) (deps_open h) (deps_enter h) (log h).

Definition setShowOutro (v : bool) (h : Hooks) : Hooks :=
  mkHooks (index h) (showIntro h) v (introShownRef h) (stepsRef h)
          (memo_current h) (deps_reset h) (deps_open h) (deps_enter h) (log h).

Definition set_introShownRef (v : bool) (h : Hooks) : Hooks :=
  mkHooks (index h) (showIntro h) (showOutro h) v (stepsRef h)
          (memo_current h) (deps_reset h) (deps_open h) (deps_enter h) (log h).

Definition set_stepsRef (v : list TourStep.t) (h : Hooks) : Hooks :=
  mkHooks (index h) (showIntro h) (showOutro h) (introShownRef h) v
          (memo_current h) (deps_reset h) (deps_open h) (deps_enter h) (log h).

Definition set_memo_current v (h : Hooks) : Hooks :=
  mkHooks (index h) (showIntro h) (showOutro h) (introShownRef h) (stepsRef h)
          v (deps_reset h) (deps_open h) (deps_enter h) (log h).

Definition set_deps_reset v (h : Hooks) : Hooks :=
  mkHooks (index h) (showIntro h) (showOutro h) (introShownRef h) (stepsRef h)
          (memo_current h) v (deps_open h) (deps_enter h) (log h).

Definition set_deps_open v (h : Hooks) : Hooks :=
  mkHooks (index h) (showIntro h) (showOutro h) (introShownRef h) (stepsRef h)
          (memo_current h) (deps_reset h) v (deps_enter h) (log h).

Definition set_deps_enter v (h : Hooks) : Hooks :=
  mkHooks (index h) (showIntro h) (showOutro h) (introShownRef h) (stepsRef h)
          (memo_current h) (deps_reset h) (deps_open h) v (log h).

(** [f?.()]: call the callback when it is defined. *)
Definition call (f : option Callback) (h : Hooks) : Hooks :=
  match f with
  | Some c =>
      mkHooks (index h) (showIntro h) (showOutro h) (introShownRef h)
              (stepsRef h) (memo_current h) (deps_reset h) (deps_open h)
              (deps_enter h) (log h ++ [c])
  | None => h
  end.

(** [s?.onEnter] and [s?.onNext] on a step that may be [undefined]. *)
Definition step_onEnter (s : option TourStep.t) : option Callback :=
  match s with Some s => TourStep.onEnter s | None => None end.

Definition step_onNext (s : option TourStep.t) : option Callback :=
  match s with Some s => TourStep.onNext s | None => None end.

(** The values a render hands to the closures it creates. *)
Record Frame := mkFrame {
  props : StepTourProps;
  f_index : Z;
  f_showIntro : bool;
  f_showOutro : bool;
  current : option TourStep.t;
  f_total : Z              (* [stepsRef.current.length] read by the render *)
}.

(** Comparison of dependency arrays. *)
Definition same_reset (a b : bool * Z * Z) : bool :=
  let '(o, i, n) := a in let '(o', i', n') := b in
  Bool.eqb o o' && (i =? i') && (n =? n').

Definition same_ref (a b : option nat) : bool :=
  match a, b with
  | Some x, Some y => Nat.eqb x y
  | None, None => true
  | _, _ => false
  end.

Definition same_open (a b : bool * option nat) : bool :=
  Bool.eqb (fst a) (fst b) && same_ref (snd a) (snd b).

Definition same_enter (a b : Z * bool * bool) : bool :=
  let '(i, o, s) := a in let '(i', o', s') := b in
  (i =? i') && Bool.eqb o o' && Bool.eqb s s'.

Definition same_memo (a b : bool * bool * Z) : bool :=
  let '(o, s, i) := a in let '(o', s', i') := b in
  Bool.eqb o o' && Bool.eqb s s' && (i =? i').

Definition changed {D} (same : D -> D -> bool) (last : option D) (now : D)
  : bool :=
  match last with
  | Some d => negb (same d now)
  | None => true
  end.

(** ** Render (lines 71-76 and 125-128)

    [current] is memoised on [open, showIntro, index]; when recomputed it
    reads [stepsRef.current] as it is during the render, that is before
    the effects of this render have run. *)
Definition render (p : StepTourProps) (h : Hooks) : Hooks * Frame :=
  let d := (open p, showIntro h, index h) in
  let fresh :=
    if open p && negb (showIntro h) then at_index (stepsRef h) (index h)
    else None in
  let cur :=
    match memo_current h with
    | Some (d', v) => if same_memo d' d then v else fresh
    | None => fresh
    end in
  (set_memo_current (Some (d, cur)) h,
   mkFrame p (index h) (showIntro h) (showOutro h) cur (len (stepsRef h))).

(** ** Effects, in declaration order *)

(** Lines 78-80.  The effect only stores the array, so a run skipped by
    its dependency array [steps] would have stored the array the cell
    already holds: it is modelled as running on every commit. *)
Definition effect_steps (f : Frame) (h : Hooks) : Hooks :=
  set_stepsRef (steps (props f)) h.

(** Lines 83-88: reset index if the steps array becomes shorter. *)
Definition effect_reset (f : Frame) (h : Hooks) : Hooks :=
  if negb (open (props f)) then h
  else if len (stepsRef h) <=? f_index f then setIndex 0 h
  else h.

(** Lines 90-108. *)
Definition effect_open (f : Frame) (h : Hooks) : Hooks :=
  if negb (open (props f)) then
    set_introShownRef false
      (setShowOutro false (setShowIntro false (setIndex 0 h)))
  else if introShownRef h then h
  else
    let h := set_introShownRef true h in
    match intro (props f) with
    | Some i => call (TourIntro.onEnter i) (setShowIntro true h)
    | None => call (step_onEnter (at_index (stepsRef h) 0)) h
    end.

(** Lines 110-113. *)
Definition effect_enter (f : Frame) (h : Hooks) : Hooks :=
  if negb (open (props f)) || f_showIntro f then h
  else call (step_onEnter (at_index (stepsRef h) (f_index f))) h.

Definition intro_ref (p : StepTourProps) : option nat :=
  match intro p with Some i => Some (TourIntro.ref i) | None => None end.

(** [useEffect(eff, deps)] at a commit: the effect runs when its dependency
    array changed since its last run (always at mount). *)
Definition useEffect {D} (same : D -> D -> bool) (last : Hooks -> option D)
  (store : option D -> Hooks -> Hooks) (now : D) (eff : Hooks -> Hooks)
  (h : Hooks) : Hooks :=
  if changed same (last h) now then eff (store (Some now) h) else h.

(** The commit of a render: the effects in declaration order. *)
Definition commit (f : Frame) (h : Hooks) : Hooks :=
  let p := props f in
  let h := effect_steps f h in
  let h := useEffect same_reset deps_reset set_deps_reset
             (open p, f_index f, len (steps p)) (effect_reset f) h in
  let h := useEffect same_open deps_open set_deps_open
             (open p, intro_ref p) (effect_open f) h in
  useEffect same_enter deps_enter set_deps_enter
    (f_index f, open p, f_showIntro f) (effect_enter f) h.

(** A state update is pending when a cell differs from the rendered value. *)
Definition pending (f : Frame) (h : Hooks) : bool :=
  negb ((index h =? f_index f) && Bool.eqb (showIntro h) (f_showIntro f)
        && Bool.eqb (showOutro h) (f_showOutro f)).

Definition pass (p : StepTourProps) (h : Hooks) : Hooks * Frame :=
  let (h1, f) := render p h in (commit f h1, f).

(** React re-renders while updates are pending and gives up with
    "Maximum update depth exceeded" after 50 nested updates. *)
Definition update_depth_limit : nat := 50.

Fixpoint settle (fuel : nat) (p : StepTourProps) (h : Hooks)
  : option (Hooks * Frame) :=
  match fuel with
  | O => None
  | S k =>
      let (h', f) := pass p h in
      if pending f h' then settle k p h' else Some (h', f)
  end.

Definition rerender (p : StepTourProps) (h : Hooks) : option (Hooks * Frame) :=
  settle update_depth_limit p h.

Definition init (p : StepTourProps) : Hooks :=
  mkHooks 0 false false false (steps p) None None None None [].

Definition mount (p : StepTourProps) : option (Hooks * Frame) :=
  rerender p (init p).

(** ** Handlers (lines 130-175)

    A handler is a closure of the render that created it: it reads
    [index], [current], [intro], [outro] and [onClose] from that render's
    frame, and the two refs from the live cells. *)

Definition handleClose (f : Frame) (h : Hooks) : Hooks :=
  let h := setShowIntro false h in
  let h := setShowOutro false h in
  let h := setIndex 0 h in
  let h := set_introShownRef false h in
  call (onClose (props f)) h.

Definition handleNext (f : Frame) (h : Hooks) : Hooks :=
  let h := call (step_onNext (current f)) h in
  let hasNext := f_index f + 1 <? len (stepsRef h) in
  if hasNext then updateIndex (fun prev => prev + 1) h
  else
    match outro (props f) with
    | Some o => setShowOutro true (call (TourOutro.onEnter o) h)
    | None => handleClose f h
    end.

Definition handlePrev (f : Frame) (h : Hooks) : Hooks :=
  if f_index f <=? 0 then h
  else updateIndex (fun prev => Z.max 0 (prev - 1)) h.

Definition handleOutroPrev (f : Frame) (h : Hooks) : Hooks :=
  if len (stepsRef h) =? 0 then setShowOutro false h
  else updateIndex (fun prev => Z.max 0 (prev - 1)) (setShowOutro false h).

Definition handleIntroNext (f : Frame) (h : Hooks) : Hooks :=
  let h :=
    call (match intro (props f) with
          | Some i => TourIntro.onNext i
          | None => None
          end) h in
  let h := setShowIntro false h in
  if 0 <? len (stepsRef h)
  then call (step_onEnter (at_index (stepsRef h) 0)) h
  else handleClose f h.

(** The inline [onNext] of the outro screen (lines 237-240, 256-259). *)
Definition handleOutroNext (f : Frame) (h : Hooks) : Hooks :=
  let h :=
    call (match outro (props f) with
          | Some o => TourOutro.onNext o
          | None => None
          end) h in
  handleClose f h.

Inductive Handler :=
| HClose | HNext | HPrev | HOutroPrev | HIntroNext | HOutroNext.

Definition run (hd : Handler) : Frame -> Hooks -> Hooks :=
  match hd with
  | HClose => handleClose
  | HNext => handleNext
  | HPrev => handlePrev
  | HOutroPrev => handleOutroPrev
  | HIntroNext => handleIntroNext
  | HOutroNext => handleOutroNext
  end.

(** ** HighlightTour (HighlightTour.tsx) *)

Module HighlightTour.

(** [HighlightTourProps] (lines 25-47), over the type [H] of the
    handlers it is given; labels and class names are left out. *)
Record Props (H : Type) := mkProps {
  open : bool;
  targetSelector : string;
  title : string;
  description : string;
  onNext : option H;
  onPrev : option H;
  onClose : H;
  progress : option (Z * Z)
}.
Arguments mkProps {H}.
Arguments open {H}.
Arguments targetSelector {H}.
Arguments title {H}.
Arguments description {H}.
Arguments onNext {H}.
Arguments onPrev {H}.
Arguments onClose {H}.
Arguments progress {H}.

(** What [handleKey] (lines 132-147) does with a key: whether it calls
    [event.preventDefault()] and the handler it invokes. *)
Record KeyResult (H : Type) := mkKey {
  preventDefault : bool;
  invoked : option H
}.
Arguments mkKey {H}.
Arguments preventDefault {H}.
Arguments invoked {H}.

Definition handleKey {H} (p : Props H) (key : string) : KeyResult H :=
  if String.eqb key "Escape" then mkKey true (Some (onClose p))
  else
    match String.eqb key "ArrowRight", onNext p with
    | true, Some n => mkKey true (Some n)
    | _, _ =>
        match String.eqb key "ArrowLeft", onPrev p with
        | true, Some b => mkKey true (Some b)
        | _, _ => mkKey false None
        end
    end.

(** The listener is on [window] only while [open] (lines 130-150). *)
Definition keydown {H} (p : Props H) (key : string) : KeyResult H :=
  if negb (open p) then mkKey false None else handleKey p key.

(** A [DOMRect] as [getBoundingClientRect] returns it; lengths are CSS
    pixels, taken as rationals. *)
Record DOMRect := mkRect {
  left : Q;
  top : Q;
  width : Q;
  height : Q
}.

Definition bottom (r : DOMRect) : Q := (top r + height r)%Q.

(** Lines 159-164. *)
Definition highlightStyle (r : DOMRect) : DOMRect :=
  mkRect (left r - 8)%Q (top r - 8)%Q (width r + 16)%Q (height r + 16)%Q.

(** Lines 166-167.  [min] and [max] select one of their arguments; the
    sum [rect.bottom + 12] and the two differences are taken exactly,
    where the code computes them on doubles and rounds the result. *)
Definition tooltipLeft (rect : DOMRect) (viewportWidth : Q) : Q :=
  Qmin (Qmax (left rect) 16) (Qmax 16 (viewportWidth - 320)).

Definition tooltipTop (rect : DOMRect) (viewportHeight : Q) : Q :=
  Qmin (bottom rect + 12) (viewportHeight - 160).

End HighlightTour.

(** ** What StepTour renders (lines 177-309) *)

Inductive View :=
| VNull
| VIntro (i : TourIntro.t) (onClose onNext : Handler)
| VOutro (o : TourOutro.t) (onClose onNext : Handler) (onPrev : option Handler)
| VStep (hp : HighlightTour.Props Handler).

Definition view (f : Frame) : View :=
  let p := props f in
  if negb (open p) then VNull
  else
    match f_showIntro f, intro p with
    | true, Some i => VIntro i HClose HIntroNext
    | _, _ =>
        match f_showOutro f, outro p with
        | true, Some o =>
            VOutro o HClose HOutroNext
                   (if 0 <? f_index f then Some HOutroPrev else None)
        | _, _ =>
            match current f with
            | None => VNull
            | Some c =>
                VStep (HighlightTour.mkProps
                         true (TourStep.selector c) (TourStep.title c)
                         (TourStep.description c)
                         (Some HNext)
                         (if 0 <? f_index f then Some HPrev else None)
                         HClose
                         (Some (f_index f + 1, f_total f)))
            end
        end
    end.

(** The phase of the tour, read off what is rendered. *)
Inductive TourPhase :=
| Closed
| Intro
| Step (i : Z)
| Outro.

Definition phase (f : Frame) : TourPhase :=
  match view f with
  | VNull => Closed
  | VIntro _ _ _ => Intro
  | VOutro _ _ _ _ => Outro
  | VStep _ => Step (f_index f)
  end.

(** The three actions a screen can offer: [close()], [advance()] and
    [retreat()], as the handlers handed to its buttons. *)
Inductive Action := close | advance | retreat.

Definition offered (v : View) (a : Action) : option Handler :=
  match v, a with
  | VNull, _ => None
  | VIntro _ c _, close => Some c
  | VIntro _ _ n, advance => Some n
  | VIntro _ _ _, retreat => None
  | VOutro _ c _ _, close => Some c
  | VOutro _ _ n _, advance => Some n
  | VOutro _ _ _ b, retreat => b
  | VStep hp, close => Some (HighlightTour.onClose hp)
  | VStep hp, advance => HighlightTour.onNext hp
  | VStep hp, retreat => HighlightTour.onPrev hp
  end.

(** A key press on [window]: only a mounted HighlightTour listens. *)
Definition keypress (v : View) (key : string)
  : HighlightTour.KeyResult Handler :=
  match v with
  | VStep hp => HighlightTour.keydown hp key
  | _ => HighlightTour.mkKey false None
  end.

(** ** The mounted component

    A handler runs in the frame of the last render; the updates it queued
    and the props the parent passes next (its own, if the parent does not
    react) are rendered until no update is pending. *)
Definition dispatch (hd : Handler) (p' : StepTourProps)
  (m : Hooks * Frame) : option (Hooks * Frame) :=
  let (h, f) := m in rerender p' (run hd f h).

Definition click (a : Action) (p' : StepTourProps) (m : Hooks * Frame)
  : option (Hooks * Frame) :=
  match offered (view (snd m)) a with
  | Some hd => dispatch hd p' m
  | None => Some m
  end.

Definition press (key : string) (p' : StepTourProps) (m : Hooks * Frame)
  : option (Hooks * Frame) :=
  match HighlightTour.invoked (keypress (view (snd m)) key) with
  | Some hd => dispatch hd p' m
  | None => Some m
  end.

Definition and_then {A B} (x : option A) (k : A -> option B) : option B :=
  match x with Some a => k a | None => None end.

Notation "x >>= k" := (and_then x k) (at level 50, left associativity).

(** What an observer sees of a mounted component. *)
Definition observe (m : option (Hooks * Frame))
  : option (TourPhase * list Callback) :=
  match m with
  | Some (h, f) => Some (phase f, log h)
  | None => None
  end.

Module Demo.
Open Scope string_scope.
Definition A := TourStep.mk "a" "#a" "A" "" (Some "A.onEnter") (Some "A.onNext").
Definition B := TourStep.mk "b" "#b" "B" "" (Some "B.onEnter") (Some "B.onNext").
Definition C := TourStep.mk "c" "#c" "C" "" (Some "C.onEnter") (Some "C.onNext").
Definition D := TourStep.mk "d" "#d" "D" "" (Some "D.onEnter") (Some "D.onNext").
Definition E := TourStep.mk "e" "#e" "E" "" (Some "E.onEnter") (Some "E.onNext").
Definition I (r : nat) :=
  TourIntro.mk r "Welcome" "" (Some "intro.onNext") (Some "intro.onEnter")
               (Some "intro.onClose").
Definition O :=
  TourOutro.mk "Done" "" (Some "outro.onNext") (Some "outro.onEnter")
               (Some "outro.onClose").

(** A parent that passes [onClose] and the given screens. *)
Definition tour (o : bool) (ss : list TourStep.t)
  (i : option TourIntro.t) (u : option TourOutro.t) : StepTourProps :=
  mkProps o ss (Some "onClose") i u.

(** A parent that passes no [onClose] (the prop is optional). *)
Definition bare (o : bool) (ss : list TourStep.t)
  (i : option TourIntro.t) (u : option TourOutro.t) : StepTourProps :=
  mkProps o ss None i u.
End Demo.

(** ** Sessions: a mount followed by renders, clicks and key presses *)

Inductive Event :=
| Render (p : StepTourProps)               (* the parent renders with [p] *)
| Click (a : Action) (p : StepTourProps)   (* a button; the parent renders [p] *)
| Key (key : string) (p : StepTourProps).  (* a key; the parent renders [p] *)

Definition react (e : Event) (m : Hooks * Frame) : option (Hooks * Frame) :=
  match e with
  | Render p => rerender p (fst m)
  | Click a p => click a p m
  | Key k p => press k p m
  end.

Fixpoint replay (es : list Event) (m : Hooks * Frame)
  : option (Hooks * Frame) :=
  match es with
  | [] => Some m
  | e :: es => react e m >>= replay es
  end.

Definition session (p0 : StepTourProps) (es : list Event)
  : option (Hooks * Frame) :=
  mount p0 >>= replay es.

(** The calls an optional callback adds to the log. *)
Definition calls (f : option Callback) : list Callback :=
  match f with Some c => [c] | None => [] end.

(** The closed form of [rerender]: one pass, and a second one when the
    first left an update pending. *)
Definition flush (p : StepTourProps) (h : Hooks) : Hooks * Frame :=
  let (h1, f1) := pass p h in
  if pending f1 h1 then pass p h1 else (h1, f1).

(** The parent lowers [open] whenever a handler has closed the tour
    (the handler left the enter-once latch cleared). *)
Definition answered (e : Event) (m : Hooks * Frame) : bool :=
  let handler :=
    match e with
    | Render _ => None
    | Click a _ => offered (view (snd m)) a
    | Key k _ => HighlightTour.invoked (keypress (view (snd m)) k)
    end in
  let p' := match e with Render p | Click _ p | Key _ p => p end in
  match handler with
  | Some hd =>
      introShownRef (run hd (snd m) (fst m)) || negb (open p')
  | None => true
  end.

Fixpoint controlled (es : list Event) (m : Hooks * Frame) : bool :=
  match es with
  | [] => true
  | e :: es =>
      answered e m &&
      match react e m with
      | Some m' => controlled es m'
      | None => true
      end
  end.

(** ** The normal form of one pass *)

Definition ran_reset (p : StepTourProps) (h : Hooks) : bool :=
  changed same_reset (deps_reset h) (open p, index h, len (steps p)).

Definition ran_open (p : StepTourProps) (h : Hooks) : bool :=
  changed same_open (deps_open h) (open p, intro_ref p).

Definition ran_enter (p : StepTourProps) (h : Hooks) : bool :=
  changed same_enter (deps_enter h) (index h, open p, showIntro h).

Definition memo_value (p : StepTourProps) (h : Hooks) : option TourStep.t :=
  current (snd (render p h)).

Definition first_enter (p : StepTourProps) : option Callback :=
  match intro p with
  | Some i => TourIntro.onEnter i
  | None => step_onEnter (at_index (steps p) 0)
  end.

Definition pass_index (p : StepTourProps) (h : Hooks) : Z :=
  if ran_open p h && negb (open p) then 0
  else if ran_reset p h && open p && (len (steps p) <=? index h) then 0
  else index h.

Definition pass_showIntro (p : StepTourProps) (h : Hooks) : bool :=
  if ran_open p h then
    if negb (open p) then false
    else if introShownRef h then showIntro h
    else match intro p with Some _ => true | None => showIntro h end
  else showIntro h.

Definition pass_showOutro (p : StepTourProps) (h : Hooks) : bool :=
  if ran_open p h && negb (open p) then false else showOutro h.

Definition pass_latch (p : StepTourProps) (h : Hooks) : bool :=
  if ran_open p h then open p else introShownRef h.

Definition pass_log (p : StepTourProps) (h : Hooks) : list Callback :=
  log h
  ++ (if ran_open p h && open p && negb (introShownRef h)
      then calls (first_enter p) else [])
  ++ (if ran_enter p h && open p && negb (showIntro h)
      then calls (step_onEnter (at_index (steps p) (index h))) else []).


(** ** Invariants of a mounted component *)

Definition reset_state (h : Hooks) : Prop :=
  index h = 0 /\ showIntro h = false /\ showOutro h = false /\
  introShownRef h = false.

(** A memoised step was computed while open, with the intro flag down. *)
Definition memo_sound (h : Hooks) : Prop :=
  forall d c, memo_current h = Some (d, Some c) ->
    fst (fst d) = true /\ snd (fst d) = false.

(** What holds of the hooks whenever a render starts: after a mount, a
    flush or a handler. *)
Record Pre (h : Hooks) : Prop := {
  pre_nonneg : 0 <= index h;
  pre_memo : memo_sound h;
  pre_reset : forall i n, deps_reset h = Some (true, i, n) -> i < n \/ i = 0;
  pre_closed : forall r, deps_open h = Some (false, r) -> reset_state h
}.

(** The component at rest: no update pending, every dependency array and
    the memo up to date with the last render. *)
Record Rest (h : Hooks) (f : Frame) : Prop := {
  rest_index : f_index f = index h;
  rest_showIntro : f_showIntro f = showIntro h;
  rest_showOutro : f_showOutro f = showOutro h;
  rest_steps : stepsRef h = steps (props f);
  rest_memo : memo_current h =
              Some ((open (props f), showIntro h, index h), current f);
  rest_reset : deps_reset h =
               Some (open (props f), index h, len (steps (props f)));
  rest_open : deps_open h = Some (open (props f), intro_ref (props f));
  rest_enter : deps_enter h = Some (index h, open (props f), showIntro h);
  rest_pre : Pre h
}.

(** The parent passes another steps array and keeps every other prop. *)
Definition with_steps (ss : list TourStep.t) (p : StepTourProps)
  : StepTourProps :=
  mkProps (open p) ss (onClose p) (intro p) (outro p).

(** Whether every close of a session was answered by the parent. *)
Definition controlled_session (p0 : StepTourProps) (es : list Event) : bool :=
  match mount p0 with
  | Some m => controlled es m
  | None => false
  end.

(** What a controlled session keeps: while open the latch is set, and the
    two screen flags are not both raised. *)
Definition Ctl (h : Hooks) (f : Frame) : Prop :=
  (open (props f) = true -> introShownRef h = true) /\
  showIntro h && showOutro h = false.

(** The handlers a screen or the keyboard can invoke. *)
Definition available (f : Frame) (hd : Handler) : Prop :=
  (exists a, offered (view f) a = Some hd) \/
  (exists k, HighlightTour.invoked (keypress (view f) k) = Some hd).

(** ** The scroll lock of StepTour (StepTour.tsx, lines 115-123)

    [document.documentElement.style.overflow] is a cell of the page; the
    effect depends on [open] alone and returns a cleanup that restores the
    value it read. *)
Module ScrollLock.

Record Cells := mkCells {
  overflow : string;            (* document.documentElement.style.overflow *)
  cleanup : option string;      (* the [overflow] the pending cleanup restores *)
  deps : option bool            (* [open] at the last run of the effect *)
}.

(** The cleanup returned by the last run, if any (line 121). *)
Definition run_cleanup (c : Cells) : Cells :=
  match cleanup c with
  | Some saved => mkCells saved None (deps c)
  | None => c
  end.

(** The effect body (lines 117-119). *)
Definition effect (open : bool) (c : Cells) : Cells :=
  if negb open then c
  else mkCells "hidden"%string (Some (overflow c)) (deps c).

(** A commit: when [open] changed, the cleanup of the last run and then
    the effect. *)
Definition commit (open : bool) (c : Cells) : Cells :=
  match deps c with
  | Some o =>
      if Bool.eqb o open then c
      else effect open (run_cleanup (mkCells (overflow c) (cleanup c) (Some open)))
  | None => effect open (mkCells (overflow c) (cleanup c) (Some open))
  end.

Definition mount (open : bool) (page_overflow : string) : Cells :=
  commit open (mkCells page_overflow None None).

Definition unmount (c : Cells) : Cells := run_cleanup c.

Inductive Event :=
| Render (open : bool)       (* StepTour renders with this [open] *)
| Write (v : string).        (* other code of the page sets the style *)

Definition react (e : Event) (c : Cells) : Cells :=
  match e with
  | Render o => commit o c
  | Write v => mkCells v (cleanup c) (deps c)
  end.

Definition replay (es : list Event) (c : Cells) : Cells :=
  fold_left (fun c e => react e c) es c.

(** An event that keeps the tour open. *)
Definition keeps_open (e : Event) : bool :=
  match e with
  | Render o => o
  | Write _ => true
  end.

(** The lock is released, with the page's own style [v] in place: no
    cleanup is pending and the effect did not last run with [open]
    raised. *)
Definition unlocked (v : string) (c : Cells) : Prop :=
  overflow c = v /\ cleanup c = None /\ deps c <> Some true.

(** The lock is held: the style is "hidden" and the cleanup will restore
    the page's own style [v]. *)
Definition locked (v : string) (c : Cells) : Prop :=
  overflow c = "hidden"%string /\ cleanup c = Some v /\ deps c = Some true.

End ScrollLock.

(** ** Target lookup and rectangle tracking of HighlightTour
       (HighlightTour.tsx, lines 65-128 and 152-167) *)
Module Overlay.

Definition Element := nat.

(** What [document.querySelector] does with a selector: it returns the
    first element that matches or [null], or it throws a [SyntaxError]
    when the string is not a valid selector. *)
Inductive Lookup :=
| Found (el : Element)
| NotFound
| Invalid.

(** The page as the component reads it. *)
Record Page := mkPage {
  querySelector : string -> Lookup;
  getBoundingClientRect : Element -> HighlightTour.DOMRect;
  hasMutationObserver : bool   (* line 87 *)
}.

(** The exceptions that leave a render of the component: the
    [SyntaxError] of [querySelector], which no line of the component
    catches, and React's "Maximum update depth exceeded".  Either unmounts
    the tree. *)
Inductive Exception :=
| SyntaxError (selector : string)
| UpdateDepthExceeded.

Inductive Result (A : Type) :=
| Ok (a : A)
| Threw (e : Exception).
Arguments Ok {A}.
Arguments Threw {A}.

Definition bind {A B} (r : Result A) (k : A -> Result B) : Result B :=
  match r with
  | Ok a => k a
  | Threw e => Threw e
  end.

(** Calls made on the target element. *)
Inductive DomCall :=
| ScrollIntoView (e : Element)
| Focus (e : Element).

Record Cells := mkCells {
  rect : option HighlightTour.DOMRect;       (* useState, line 65 *)
  targetEl : option Element;                 (* useState, line 66 *)
  observer : option string;   (* the connected MutationObserver and the
                                 selector its [findTarget] looks up *)
  tracked : option Element;   (* the element the ResizeObserver and the
                                 scroll and resize listeners measure *)
  deps_find : option (bool * string);            (* effect of lines 68-98 *)
  deps_track : option (bool * option Element);   (* effect of lines 100-128 *)
  dirty : bool;               (* a state setter asked for a render *)
  dom : list DomCall
}.

Definition same_el (a b : option Element) : bool :=
  match a, b with
  | Some x, Some y => Nat.eqb x y
  | None, None => true
  | _, _ => false
  end.

(** [setTargetEl(v)]: no render is asked for when the cell already holds
    [v]. *)
Definition setTargetEl (v : option Element) (c : Cells) : Cells :=
  mkCells (rect c) v (observer c) (tracked c) (deps_find c) (deps_track c)
          (dirty c || negb (same_el v (targetEl c))) (dom c).

(** [setRect(v)]: a DOMRect returned by [getBoundingClientRect] is a new
    object, [null] is not. *)
Definition setRect (v : option HighlightTour.DOMRect) (c : Cells) : Cells :=
  mkCells v (targetEl c) (observer c) (tracked c) (deps_find c) (deps_track c)
          (dirty c || match v, rect c with None, None => false | _, _ => true end)
          (dom c).

Definition set_observer (v : option string) (c : Cells) : Cells :=
  mkCells (rect c) (targetEl c) v (tracked c) (deps_find c) (deps_track c)
          (dirty c) (dom c).

Definition set_tracked (v : option Element) (c : Cells) : Cells :=
  mkCells (rect c) (targetEl c) (observer c) v (deps_find c) (deps_track c)
          (dirty c) (dom c).

Definition set_deps_find v (c : Cells) : Cells :=
  mkCells (rect c) (targetEl c) (observer c) (tracked c) v (deps_track c)
          (dirty c) (dom c).

Definition set_deps_track v (c : Cells) : Cells :=
  mkCells (rect c) (targetEl c) (observer c) (tracked c) (deps_find c) v
          (dirty c) (dom c).

Definition set_dirty (v : bool) (c : Cells) : Cells :=
  mkCells (rect c) (targetEl c) (observer c) (tracked c) (deps_find c)
          (deps_track c) v (dom c).

Definition dom_call (d : DomCall) (c : Cells) : Cells :=
  mkCells (rect c) (targetEl c) (observer c) (tracked c) (deps_find c)
          (deps_track c) (dirty c) (dom c ++ [d]).

(** The props the two effects read. *)
Record Input := mkInput {
  open : bool;
  targetSelector : string
}.

(** The values of a render. *)
Record Frame := mkFrame {
  input : Input;
  f_rect : option HighlightTour.DOMRect;
  f_targetEl : option Element
}.

(** [findTarget] (lines 74-81) on the page as it is when called; the
    exception of [querySelector] leaves it before any state is set. *)
Definition findTarget (pg : Page) (selector : string) (c : Cells)
  : Result (bool * Cells) :=
  match querySelector pg selector with
  | Found el => Ok (true, setTargetEl (Some el) c)
  | NotFound => Ok (false, c)
  | Invalid => Threw (SyntaxError selector)
  end.

(** The effect of lines 68-98; its cleanup disconnects the observer. *)
Definition effect_find (pg : Page) (f : Frame) (c : Cells) : Result Cells :=
  if negb (open (input f)) then Ok (setRect None (setTargetEl None c))
  else
    bind (findTarget pg (targetSelector (input f)) c) (fun r =>
      let (found, c) := r in
      if found then Ok c
      else if hasMutationObserver pg
           then Ok (set_observer (Some (targetSelector (input f))) c)
           else Ok c).

Definition cleanup_find (c : Cells) : Cells := set_observer None c.

(** [update] (lines 106-109) for the element the listeners are bound to. *)
Definition update (pg : Page) (el : Element) (c : Cells) : Cells :=
  setRect (Some (getBoundingClientRect pg el)) c.

(** The layout effect of lines 100-128; its cleanup releases the
    ResizeObserver and the two listeners.  [focus] may throw and the
    exception is dropped (lines 112-116). *)
Definition effect_track (pg : Page) (f : Frame) (c : Cells) : Result Cells :=
  match open (input f), f_targetEl f with
  | true, Some el =>
      let c := dom_call (ScrollIntoView el) c in
      let c := update pg el c in
      let c := dom_call (Focus el) c in
      Ok (set_tracked (Some el) c)
  | _, _ => Ok c
  end.

Definition cleanup_track (c : Cells) : Cells := set_tracked None c.

Definition same_find (a b : bool * string) : bool :=
  Bool.eqb (fst a) (fst b) && String.eqb (snd a) (snd b).

Definition same_track (a b : bool * option Element) : bool :=
  Bool.eqb (fst a) (fst b) && same_el (snd a) (snd b).

Definition render (p : Input) (c : Cells) : Cells * Frame :=
  (set_dirty false c, mkFrame p (rect c) (targetEl c)).

(** An effect at a commit: when its dependency array changed, the cleanup
    of its last run and then the effect. *)
Definition useEffect {D} (same : D -> D -> bool) (last : Cells -> option D)
  (store : option D -> Cells -> Cells) (now : D)
  (cleanup : Cells -> Cells) (eff : Cells -> Result Cells) (c : Cells)
  : Result Cells :=
  if changed same (last c) now then eff (cleanup (store (Some now) c))
  else Ok c.

(** A commit: the layout effect, then the passive effect. *)
Definition commit (pg : Page) (f : Frame) (c : Cells) : Result Cells :=
  bind (useEffect same_track deps_track set_deps_track
          (open (input f), f_targetEl f)
          cleanup_track (effect_track pg f) c)
       (useEffect same_find deps_find set_deps_find
          (open (input f), targetSelector (input f))
          cleanup_find (effect_find pg f)).

Definition pass (pg : Page) (p : Input) (c : Cells) : Result (Cells * Frame) :=
  let (c1, f) := render p c in
  bind (commit pg f c1) (fun c' => Ok (c', f)).

Fixpoint settle (fuel : nat) (pg : Page) (p : Input) (c : Cells)
  : Result (Cells * Frame) :=
  match fuel with
  | O => Threw UpdateDepthExceeded
  | S k =>
      match pass pg p c with
      | Ok (c', f) => if dirty c' then settle k pg p c' else Ok (c', f)
      | Threw e => Threw e
      end
  end.

Definition rerender (pg : Page) (p : Input) (c : Cells)
  : Result (Cells * Frame) :=
  settle update_depth_limit pg p c.

Definition init : Cells := mkCells None None None None None None false [].

Definition mount (pg : Page) (p : Input) : Result (Cells * Frame) :=
  rerender pg p init.

(** What is rendered (lines 152-167 and 184-188): nothing without a
    rectangle, else the highlight box and the tooltip position. *)
Definition shown (f : Frame) (viewportWidth viewportHeight : Q)
  : option (HighlightTour.DOMRect * (Q * Q)) :=
  if negb (open (input f)) then None
  else
    match f_rect f with
    | None => None
    | Some r =>
        Some (HighlightTour.highlightStyle r,
              (HighlightTour.tooltipLeft r viewportWidth,
               HighlightTour.tooltipTop r viewportHeight))
    end.

Inductive Event :=
| Render (p : Input) (pg : Page)   (* the parent renders, on this page *)
| Mutation (pg : Page)             (* a batch of mutations gave this page *)
| Geometry (pg : Page).            (* scroll, resize or element resize *)

(** The callback of the MutationObserver (lines 88-92).  An exception of
    the lookup leaves the callback: no state is set and the observer
    stays connected. *)
Definition on_mutation (pg : Page) (c : Cells) : Cells :=
  match observer c with
  | Some selector =>
      match findTarget pg selector c with
      | Ok (found, c') => if found then set_observer None c' else c'
      | Threw _ => c
      end
  | None => c
  end.

(** The listeners of lines 118-121. *)
Definition on_geometry (pg : Page) (c : Cells) : Cells :=
  match tracked c with
  | Some el => update pg el c
  | None => c
  end.

Definition react (e : Event) (m : Cells * Frame) : Result (Cells * Frame) :=
  let (c, f) := m in
  match e with
  | Render p pg => rerender pg p c
  | Mutation pg =>
      let c' := on_mutation pg c in
      if dirty c' then rerender pg (input f) c' else Ok (c', f)
  | Geometry pg =>
      let c' := on_geometry pg c in
      if dirty c' then rerender pg (input f) c' else Ok (c', f)
  end.

Fixpoint replay (es : list Event) (m : Cells * Frame)
  : Result (Cells * Frame) :=
  match es with
  | [] => Ok m
  | e :: es => bind (react e m) (replay es)
  end.

Definition session (pg : Page) (p : Input) (es : list Event)
  : Result (Cells * Frame) :=
  bind (mount pg p) (replay es).

(** The component at rest. *)
Record Rest (c : Cells) (f : Frame) : Prop := {
  rest_rect : f_rect f = rect c;
  rest_target : f_targetEl f = targetEl c;
  rest_clean : dirty c = false;
  rest_find : deps_find c = Some (open (input f), targetSelector (input f));
  rest_track : deps_track c = Some (open (input f), targetEl c);
  rest_tracked : tracked c = if open (input f) then targetEl c else None;
  rest_closed : open (input f) = false ->
                rect c = None /\ targetEl c = None /\ observer c = None;
  rest_measured : forall el, targetEl c = Some el -> rect c <> None;
  rest_resolved : rect c <> None -> targetEl c <> None;
  rest_observer : forall s, observer c = Some s ->
                  open (input f) = true /\ s = targetSelector (input f)
}.

(** A page for examples: [#a] is element 1, [#b] is element 2 once it has
    been inserted, and the string [#1] is not a valid selector. *)
Definition demo_page (with_b : bool) (scroll : Q) : Page :=
  mkPage (fun s => if String.eqb s "#a"%string then Found 1%nat
                   else if String.eqb s "#b"%string && with_b then Found 2%nat
                   else if String.eqb s "#1"%string then Invalid
                   else NotFound)
         (fun el => HighlightTour.mkRect (100 * inject_Z (Z.of_nat el))
                                         (50 - scroll) 80 20)
         true.

(** ** The normal form of one pass *)

(** Whether the effects of a pass run, and the element the layout effect
    then measures. *)
Definition ran_track (p : Input) (c : Cells) : bool :=
  changed same_track (deps_track c) (open p, targetEl c).

Definition ran_find (p : Input) (c : Cells) : bool :=
  changed same_find (deps_find c) (open p, targetSelector p).

Definition hit (p : Input) (c : Cells) : option Element :=
  if ran_track p c && open p then targetEl c else None.

(** The element a lookup returned, if it returned one. *)
Definition matched (l : Lookup) : option Element :=
  match l with
  | Found el => Some el
  | NotFound | Invalid => None
  end.

(** Whether the lookup of a pass throws: the passive effect runs, with
    [open] raised, on a selector that is not valid. *)
Definition throws (pg : Page) (p : Input) (c : Cells) : bool :=
  ran_find p c && open p &&
  match querySelector pg (targetSelector p) with
  | Invalid => true
  | Found _ | NotFound => false
  end.

(** What a pass in which no lookup throws leaves. *)
Definition pass_nf (pg : Page) (p : Input) (c : Cells) : Cells * Frame :=
  let q := matched (querySelector pg (targetSelector p)) in
  let r1 := match hit p c with
            | Some el => Some (getBoundingClientRect pg el)
            | None => rect c
            end in
  (mkCells (if ran_find p c && negb (open p) then None else r1)
           (if ran_find p c then
              if open p
              then match q with Some el => Some el | None => targetEl c end
              else None
            else targetEl c)
           (if ran_find p c then
              if open p then
                match q with
                | Some _ => None
                | None => if hasMutationObserver pg
                          then Some (targetSelector p) else None
                end
              else None
            else observer c)
           (if ran_track p c then hit p c else tracked c)
           (Some (open p, targetSelector p))
           (Some (open p, targetEl c))
           (match hit p c with Some _ => true | None => false end
            || (ran_find p c &&
                if open p
                then match q with
                     | Some el => negb (same_el (Some el) (targetEl c))
                     | None => false
                     end
                else negb (same_el None (targetEl c))
                     || match r1 with Some _ => true | None => false end))
           (dom c ++ match hit p c with
                     | Some el => [ScrollIntoView el; Focus el]
                     | None => []
                     end),
   mkFrame p (rect c) (targetEl c)).

(** The closed form of [rerender] when no lookup throws: at most three
    passes. *)
Definition flush (pg : Page) (p : Input) (c : Cells) : Cells * Frame :=
  let (c1, f1) := pass_nf pg p c in
  if dirty c1 then
    let (c2, f2) := pass_nf pg p c1 in
    if dirty c2 then pass_nf pg p c2 else (c2, f2)
  else (c1, f1).

(** What holds of the cells whenever a render starts. *)
Record Pre (c : Cells) : Prop := {
  pre_tracked : tracked c = match deps_track c with
                            | Some (true, t) => t
                            | _ => None
                            end;
  pre_closed : forall s, deps_find c = Some (false, s) ->
               rect c = None /\ targetEl c = None /\ observer c = None;
  pre_measured : forall el, deps_track c = Some (true, Some el) ->
                 rect c <> None /\ targetEl c <> None;
  pre_resolved : rect c <> None -> targetEl c <> None;
  pre_observer : forall s, observer c = Some s ->
                 deps_find c = Some (true, s);
  pre_open : forall o t o' s, deps_track c = Some (o, t) ->
             deps_find c = Some (o', s) -> o = o'
}.

End Overlay.

(** * Proofs *)

(** ** Dependency arrays *)

Lemma eqb_same b : Bool.eqb b b = true.
Proof. destruct b; reflexivity. Qed.

Lemma same_reset_eq a b : same_reset a b = true -> a = b.
Proof.
  destruct a as [[o i] n], b as [[o' i'] n']; cbn.
  rewrite !andb_true_iff, !Z.eqb_eq. intros [[Ho ->] ->].
  apply eqb_prop in Ho. now subst.
Qed.

Lemma same_ref_eq a b : same_ref a b = true -> a = b.
Proof.
  destruct a, b; cbn; try congruence.
  intros H. apply Nat.eqb_eq in H. now subst.
Qed.

Lemma same_open_eq a b : same_open a b = true -> a = b.
Proof.
  destruct a as [o r], b as [o' r']; unfold same_open; cbn.
  rewrite andb_true_iff. intros [Ho Hr].
  apply eqb_prop in Ho. apply same_ref_eq in Hr. now subst.
Qed.

Lemma same_enter_eq a b : same_enter a b = true -> a = b.
Proof.
  destruct a as [[i o] s], b as [[i' o'] s']; cbn.
  rewrite !andb_true_iff, Z.eqb_eq. intros [[-> Ho] Hs].
  apply eqb_prop in Ho, Hs. now subst.
Qed.

Lemma same_memo_eq a b : same_memo a b = true -> a = b.
Proof.
  destruct a as [[o s] i], b as [[o' s'] i']; cbn.
  rewrite !andb_true_iff, Z.eqb_eq. intros [[Ho Hs] ->].
  apply eqb_prop in Ho, Hs. now subst.
Qed.

Lemma same_ref_refl a : same_ref a a = true.
Proof. destruct a; cbn; auto using Nat.eqb_refl. Qed.

Lemma same_reset_refl a : same_reset a a = true.
Proof. destruct a as [[o i] n]; cbn. now rewrite eqb_same, !Z.eqb_refl. Qed.

Lemma same_open_refl a : same_open a a = true.
Proof. unfold same_open. now rewrite eqb_same, same_ref_refl. Qed.

Lemma same_enter_refl a : same_enter a a = true.
Proof. destruct a as [[i o] s]; cbn. now rewrite !eqb_same, Z.eqb_refl. Qed.

Lemma same_memo_refl a : same_memo a a = true.
Proof. destruct a as [[o s] i]; cbn. now rewrite !eqb_same, Z.eqb_refl. Qed.

Lemma changed_false {D} (same : D -> D -> bool) last now :
  (forall a b, same a b = true -> a = b) ->
  changed same last now = false -> last = Some now.
Proof.
  intros Hsame. destruct last as [d|]; cbn; [|discriminate].
  intros H. apply negb_false_iff in H. now rewrite (Hsame _ _ H).
Qed.

Lemma call_eq f h :
  call f h =
  mkHooks (index h) (showIntro h) (showOutro h) (introShownRef h)
          (stepsRef h) (memo_current h) (deps_reset h) (deps_open h)
          (deps_enter h) (log h ++ calls f).
Proof. destruct f, h; cbn; now rewrite ?app_nil_r. Qed.

Lemma useEffect_reset f h now :
  useEffect same_reset deps_reset set_deps_reset now (effect_reset f) h =
  mkHooks (if changed same_reset (deps_reset h) now && open (props f)
              && (len (stepsRef h) <=? f_index f)
           then 0 else index h)
          (showIntro h) (showOutro h) (introShownRef h) (stepsRef h)
          (memo_current h) (Some now) (deps_open h) (deps_enter h) (log h).
Proof.
  destruct h as [i si so latch sr memo d2 d3 d4 lg].
  unfold useEffect, effect_reset; cbn.
  destruct (changed same_reset d2 now) eqn:E;
    [|apply changed_false in E; [now subst|exact same_reset_eq]].
  cbn. destruct (open (props f)); cbn; [|reflexivity].
  now destruct (len sr <=? f_index f).
Qed.

Lemma useEffect_open f h now :
  useEffect same_open deps_open set_deps_open now (effect_open f) h =
  let ran := changed same_open (deps_open h) now in
  let o := open (props f) in
  mkHooks (if ran && negb o then 0 else index h)
          (if ran then
             if negb o then false
             else if introShownRef h then showIntro h
             else match intro (props f) with
                  | Some _ => true
                  | None => showIntro h
                  end
           else showIntro h)
          (if ran && negb o then false else showOutro h)
          (if ran then o else introShownRef h)
          (stepsRef h) (memo_current h) (deps_reset h) (Some now)
          (deps_enter h)
          (log h ++
           if ran && o && negb (introShownRef h)
           then calls (match intro (props f) with
                       | Some i => TourIntro.onEnter i
                       | None => step_onEnter (at_index (stepsRef h) 0)
                       end)
           else []).
Proof.
  destruct h as [i si so latch sr memo d2 d3 d4 lg].
  unfold useEffect, effect_open; cbn.
  destruct (changed same_open d3 now) eqn:E;
    [|apply changed_false in E; [subst; cbn; now rewrite app_nil_r
                                |exact same_open_eq]].
  cbn. destruct (open (props f)); cbn; [|now rewrite app_nil_r].
  destruct latch; cbn; [now rewrite app_nil_r|].
  destruct (intro (props f)); now rewrite call_eq.
Qed.

Lemma useEffect_enter f h now :
  useEffect same_enter deps_enter set_deps_enter now (effect_enter f) h =
  mkHooks (index h) (showIntro h) (showOutro h) (introShownRef h)
          (stepsRef h) (memo_current h) (deps_reset h) (deps_open h)
          (Some now)
          (log h ++
           if changed same_enter (deps_enter h) now && open (props f)
              && negb (f_showIntro f)
           then calls (step_onEnter (at_index (stepsRef h) (f_index f)))
           else []).
Proof.
  destruct h as [i si so latch sr memo d2 d3 d4 lg].
  unfold useEffect, effect_enter; cbn.
  destruct (changed same_enter d4 now) eqn:E;
    [|apply changed_false in E; [subst; cbn; now rewrite app_nil_r
                                |exact same_enter_eq]].
  cbn. destruct (open (props f)); cbn; [|now rewrite app_nil_r].
  destruct (f_showIntro f); cbn; [now rewrite app_nil_r|].
  now rewrite call_eq.
Qed.

Lemma pass_eq p h :
  pass p h =
  (mkHooks (pass_index p h) (pass_showIntro p h) (pass_showOutro p h)
           (pass_latch p h) (steps p)
           (Some ((open p, showIntro h, index h), memo_value p h))
           (Some (open p, index h, len (steps p)))
           (Some (open p, intro_ref p))
           (Some (index h, open p, showIntro h))
           (pass_log p h),
   mkFrame p (index h) (showIntro h) (showOutro h) (memo_value p h)
           (len (stepsRef h))).
Proof.
  unfold pass, render, commit.
  rewrite useEffect_enter, useEffect_open, useEffect_reset.
  unfold effect_steps, set_stepsRef, set_memo_current. cbn -[changed].
  unfold pass_index, pass_showIntro, pass_showOutro, pass_latch, pass_log,
    ran_reset, ran_open, ran_enter, memo_value, first_enter, render.
  cbn -[changed].
  f_equal. f_equal. now rewrite app_assoc.
Qed.

Lemma changed_same {D} (same : D -> D -> bool) d :
  same d d = true -> changed same (Some d) d = false.
Proof. intros H; cbn. now rewrite H. Qed.

Lemma pass_index_cases p h :
  pass_index p h = index h \/ pass_index p h = 0.
Proof. unfold pass_index. repeat destruct (_ && _); auto. Qed.

(** A pass that finds the dependency arrays of the previous pass of the
    same props, with the index either as rendered then or reset to 0,
    changes no state cell. *)
Lemma quiet_pass p i i0 si so latch sr memo d4 lg :
  i = i0 \/ i = 0 ->
  let h1 := mkHooks i si so latch sr memo
                    (Some (open p, i0, len (steps p)))
                    (Some (open p, intro_ref p)) d4 lg in
  index (fst (pass p h1)) = i /\ showIntro (fst (pass p h1)) = si /\
  showOutro (fst (pass p h1)) = so /\ introShownRef (fst (pass p h1)) = latch.
Proof.
  intros Hi h1. rewrite pass_eq. cbn [fst index showIntro showOutro introShownRef].
  unfold pass_index, pass_showIntro, pass_showOutro, pass_latch, ran_open, ran_reset.
  subst h1. cbn [deps_open deps_reset index showIntro showOutro introShownRef].
  rewrite (changed_same same_open) by apply same_open_refl.
  cbn [andb]. repeat split.
  destruct Hi as [->| ->].
  - rewrite (changed_same same_reset) by apply same_reset_refl. reflexivity.
  - now destruct (_ && _).
Qed.

Lemma second_pass_quiet p h :
  let h1 := fst (pass p h) in
  pending (snd (pass p h1)) (fst (pass p h1)) = false.
Proof.
  cbn zeta. rewrite (pass_eq p h). cbn [fst].
  destruct (quiet_pass p (pass_index p h) (index h) (pass_showIntro p h)
              (pass_showOutro p h) (pass_latch p h) (steps p)
              (Some (open p, showIntro h, index h, memo_value p h))
              (Some (index h, open p, showIntro h)) (pass_log p h)
              (pass_index_cases p h)) as (H1 & H2 & H3 & _).
  unfold pending. rewrite H1, H2, H3.
  rewrite (pass_eq p). cbn. now rewrite Z.eqb_refl, !eqb_same.
Qed.

Lemma settle_flush p h k : settle (S (S k)) p h = Some (flush p h).
Proof.
  unfold flush. cbn [settle].
  destruct (pass p h) as [h1 f1] eqn:E1.
  destruct (pending f1 h1); [|reflexivity].
  pose proof (second_pass_quiet p h) as Hq. rewrite E1 in Hq.
  cbn [fst] in Hq.
  destruct (pass p h1) as [h2 f2]. cbn [fst snd] in Hq. now rewrite Hq.
Qed.

(** [rerender] always returns: two passes are enough. *)
Lemma rerender_flush p h : rerender p h = Some (flush p h).
Proof. apply settle_flush. Qed.

Lemma memo_value_sound p h c :
  memo_sound h -> memo_value p h = Some c ->
  open p = true /\ showIntro h = false.
Proof.
  unfold memo_value, render, memo_sound. cbn. intros Hm.
  assert (Hfresh : (if open p && negb (showIntro h)
                    then at_index (stepsRef h) (index h) else None) = Some c ->
                   open p = true /\ showIntro h = false).
  { destruct (open p), (showIntro h); cbn; try discriminate; auto. }
  destruct (memo_current h) as [[d v]|] eqn:E; [|exact Hfresh].
  destruct (same_memo d _) eqn:Es; [|exact Hfresh].
  intros ->. apply same_memo_eq in Es. subst d.
  apply (Hm _ _ eq_refl).
Qed.

Lemma pending_false f h :
  pending f h = false ->
  index h = f_index f /\ showIntro h = f_showIntro f /\
  showOutro h = f_showOutro f.
Proof.
  unfold pending. intros H. apply negb_false_iff in H.
  rewrite !andb_true_iff, Z.eqb_eq in H. destruct H as [[H1 H2] H3].
  apply eqb_prop in H2, H3. auto.
Qed.

Lemma pass_post p h :
  Pre h ->
  let h1 := fst (pass p h) in
  0 <= index h1 /\
  (open p = true -> index h1 < len (steps p) \/ index h1 = 0) /\
  (open p = false -> reset_state h1).
Proof.
  intros [Hn Hm Hr Hc]. rewrite pass_eq. cbn [fst].
  unfold reset_state. cbn [index showIntro showOutro introShownRef].
  unfold pass_index, pass_showIntro, pass_showOutro, pass_latch.
  split; [|split].
  - repeat destruct (_ && _); lia.
  - intros Ho. rewrite Ho. cbn [negb]. rewrite andb_false_r, andb_true_r.
    destruct (ran_reset p h) eqn:E2; cbn [andb].
    + destruct (len (steps p) <=? index h) eqn:El; auto.
      apply Z.leb_gt in El. auto.
    + apply changed_false in E2; [|exact same_reset_eq].
      rewrite Ho in E2. apply (Hr _ _ E2).
  - intros Ho. rewrite Ho. cbn [negb]. rewrite !andb_false_r, andb_true_r.
    destruct (ran_open p h) eqn:E3; cbn; auto.
    apply changed_false in E3; [|exact same_open_eq].
    rewrite Ho in E3. apply (Hc _ E3).
Qed.

Lemma pass_rest p h :
  let h1 := fst (pass p h) in
  let f1 := snd (pass p h) in
  pending f1 h1 = false ->
  memo_sound h ->
  0 <= index h1 ->
  (open p = true -> index h1 < len (steps p) \/ index h1 = 0) ->
  (open p = false -> reset_state h1) ->
  Rest h1 f1 /\ props f1 = p.
Proof.
  cbn zeta. intros Hp Hm Hn Hr Hc.
  apply pending_false in Hp. revert Hp Hn Hr Hc. rewrite pass_eq.
  cbn [fst snd index showIntro showOutro f_index f_showIntro f_showOutro].
  intros (Hi & Hsi & Hso) Hn Hr Hc.
  split; [|reflexivity].
  constructor; cbn; try congruence.
  constructor; cbn.
  - exact Hn.
  - intros d c [= <- Hv]. cbn. eapply memo_value_sound; eauto.
  - intros i n [= Ho <- <-]. rewrite <- Hi. auto.
  - intros r [= Ho _]. auto.
Qed.

Lemma flush_rest p h :
  Pre h -> Rest (fst (flush p h)) (snd (flush p h)) /\ props (snd (flush p h)) = p.
Proof.
  intros HP. destruct (pass_post p h HP) as (Hn & Hr & Hc).
  pose proof (pass_rest p h) as H1. cbn zeta in H1.
  unfold flush. destruct (pass p h) as [h1 f1] eqn:E1. cbn [fst snd] in *.
  destruct (pending f1 h1) eqn:Ep.
  - clear H1.
    pose proof (second_pass_quiet p h) as Hq. rewrite E1 in Hq. cbn [fst] in Hq.
    pose proof (pass_rest p h1) as H2. cbn zeta in H2.
    assert (Hst : index (fst (pass p h1)) = index h1 /\
                  showIntro (fst (pass p h1)) = showIntro h1 /\
                  showOutro (fst (pass p h1)) = showOutro h1 /\
                  introShownRef (fst (pass p h1)) = introShownRef h1).
    { rewrite (pass_eq p h) in E1. injection E1 as <- <-.
      apply quiet_pass. apply pass_index_cases. }
    destruct Hst as (Hi & Hsi & Hso & Hl).
    apply H2; auto.
    + rewrite (pass_eq p h) in E1. injection E1 as <- <-.
      intros d c [= <- Hv]. cbn. eapply memo_value_sound; eauto. apply HP.
    + now rewrite Hi.
    + rewrite Hi; auto.
    + intros Ho. unfold reset_state. rewrite Hi, Hsi, Hso, Hl. now apply Hc.
  - apply H1; auto. apply HP.
Qed.

(** ** Handlers keep the render preconditions *)

Ltac case_cond :=
  match goal with
  | |- context [if ?c then _ else _] => destruct c eqn:?
  | |- context [match ?c with Some _ => _ | None => _ end] => destruct c eqn:?
  end.

Ltac run_cases hd h :=
  destruct hd, h;
  unfold run, handleClose, handleNext, handlePrev, handleOutroPrev,
    handleIntroNext, handleOutroNext, handleClose;
  rewrite ?call_eq; cbn; repeat (case_cond; rewrite ?call_eq; cbn).

Lemma run_keeps hd f h :
  stepsRef (run hd f h) = stepsRef h /\
  memo_current (run hd f h) = memo_current h /\
  deps_reset (run hd f h) = deps_reset h /\
  deps_open (run hd f h) = deps_open h /\
  deps_enter (run hd f h) = deps_enter h.
Proof. run_cases hd h; auto. Qed.

Lemma run_nonneg hd f h : 0 <= index h -> 0 <= index (run hd f h).
Proof. run_cases hd h; lia. Qed.

Lemma run_pre hd f h :
  Rest h f -> open (props f) = true -> Pre (run hd f h).
Proof.
  intros HR Ho. destruct (run_keeps hd f h) as (_ & Hm & H2 & H3 & _).
  pose proof (rest_pre _ _ HR) as HP.
  constructor.
  - apply run_nonneg, HP.
  - unfold memo_sound. rewrite Hm. apply HP.
  - rewrite H2. apply HP.
  - rewrite H3, (rest_open _ _ HR), Ho. discriminate.
Qed.

Lemma offered_open f a hd :
  offered (view f) a = Some hd -> open (props f) = true.
Proof.
  unfold view. destruct (open (props f)); cbn; [reflexivity|].
  destruct a; discriminate.
Qed.

Lemma keypress_open f k hd :
  HighlightTour.invoked (keypress (view f) k) = Some hd ->
  open (props f) = true.
Proof.
  unfold view. destruct (open (props f)); cbn; [reflexivity|discriminate].
Qed.

Lemma init_pre p : Pre (init p).
Proof.
  constructor; cbn; try discriminate; try lia.
Qed.

Lemma mount_rest p h f : mount p = Some (h, f) -> Rest h f.
Proof.
  unfold mount. rewrite rerender_flush. intros [= E].
  pose proof (flush_rest p (init p) (init_pre p)) as [H _].
  now rewrite E in H.
Qed.

Lemma rerender_rest p h h' f' :
  Pre h -> rerender p h = Some (h', f') -> Rest h' f' /\ props f' = p.
Proof.
  intros HP. rewrite rerender_flush. intros [= E].
  pose proof (flush_rest p h HP) as H. now rewrite E in H.
Qed.

Lemma react_rest e h f h' f' :
  Rest h f -> react e (h, f) = Some (h', f') -> Rest h' f'.
Proof.
  intros HR. destruct e as [p|a p|k p]; cbn [react fst].
  - intros E. eapply rerender_rest; eauto. apply HR.
  - unfold click. cbn [snd].
    destruct (offered (view f) a) as [hd|] eqn:Ea.
    + unfold dispatch. intros E. eapply rerender_rest; eauto.
      apply run_pre; eauto using offered_open.
    + now intros [= <- <-].
  - unfold press. cbn [snd].
    destruct (HighlightTour.invoked _) as [hd|] eqn:Ea.
    + unfold dispatch. intros E. eapply rerender_rest; eauto.
      apply run_pre; eauto using keypress_open.
    + now intros [= <- <-].
Qed.

Lemma replay_rest es : forall h f h' f',
  Rest h f -> replay es (h, f) = Some (h', f') -> Rest h' f'.
Proof.
  induction es as [|e es IH]; cbn; intros h f h' f' HR.
  - now intros [= <- <-].
  - destruct (react e (h, f)) as [[h1 f1]|] eqn:E; cbn; [|discriminate].
    apply IH. eapply react_rest; eauto.
Qed.

(** Every session leaves the component at rest. *)
Lemma session_rest p0 es h f : session p0 es = Some (h, f) -> Rest h f.
Proof.
  unfold session. destruct (mount p0) as [[h0 f0]|] eqn:E; cbn; [|discriminate].
  apply replay_rest. eapply mount_rest; eauto.
Qed.

(** Every session returns: no render loop exceeds the update depth. *)
Lemma react_total e m : exists m', react e m = Some m'.
Proof.
  destruct m as [h f], e as [p|a p|k p]; cbn [react].
  - rewrite rerender_flush; eauto.
  - unfold click. destruct (offered _ a); eauto.
    unfold dispatch. rewrite rerender_flush; eauto.
  - unfold press. destruct (HighlightTour.invoked _); eauto.
    unfold dispatch. rewrite rerender_flush; eauto.
Qed.

Lemma session_total p0 es : exists m, session p0 es = Some m.
Proof.
  unfold session, mount. rewrite rerender_flush. cbn [and_then].
  generalize (flush p0 (init p0)).
  induction es as [|e es IH]; cbn [replay]; eauto.
  intros m. destruct (react_total e m) as [m' ->]. cbn [and_then]. apply IH.
Qed.

(** ** Symbolic evaluation of a transition *)

Lemma rest_hooks_eq h f :
  Rest h f ->
  h = mkHooks (f_index f) (f_showIntro f) (f_showOutro f) (introShownRef h)
        (steps (props f))
        (Some ((open (props f), f_showIntro f, f_index f), current f))
        (Some (open (props f), f_index f, len (steps (props f))))
        (Some (open (props f), intro_ref (props f)))
        (Some (f_index f, open (props f), f_showIntro f))
        (log h).
Proof.
  intros [H1 H2 H3 H4 H5 H6 H7 H8 _]. destruct h; cbn in *. congruence.
Qed.

Lemma rest_current h f c :
  Rest h f -> current f = Some c ->
  open (props f) = true /\ f_showIntro f = false.
Proof.
  intros HR Hc. pose proof (pre_memo _ (rest_pre _ _ HR)) as Hm.
  unfold memo_sound in Hm. rewrite (rest_memo _ _ HR), Hc in Hm.
  destruct (Hm _ _ eq_refl) as [Ho Hs]. cbn in *.
  rewrite (rest_showIntro _ _ HR). auto.
Qed.

Lemma rest_range h f :
  Rest h f -> open (props f) = true ->
  0 <= f_index f /\ (f_index f < len (steps (props f)) \/ f_index f = 0).
Proof.
  intros HR Ho. pose proof (rest_pre _ _ HR) as HP.
  rewrite (rest_index _ _ HR). split; [apply HP|].
  eapply (pre_reset _ HP). rewrite (rest_reset _ _ HR), Ho. reflexivity.
Qed.

(** What being at [Step i] says about the last render. *)
Lemma phase_step h f i :
  Rest h f -> phase f = Step i ->
  open (props f) = true /\ f_index f = i /\ f_showIntro f = false /\
  (f_showOutro f = false \/ outro (props f) = None) /\
  (exists c, current f = Some c) /\
  0 <= i /\ (i < len (steps (props f)) \/ i = 0).
Proof.
  intros HR. unfold phase, view.
  destruct (open (props f)) eqn:Ho; cbn; [|discriminate].
  destruct (current f) as [c|] eqn:Hc.
  - destruct (rest_current _ _ _ HR Hc) as [_ Hs]. rewrite Hs.
    destruct (rest_range _ _ HR Ho) as [Hn Hr].
    destruct (f_showOutro f), (outro (props f)); try discriminate;
      intros [= <-]; repeat split; eauto.
  - destruct (f_showIntro f), (intro (props f)), (f_showOutro f),
      (outro (props f)); discriminate.
Qed.

Ltac decide_Z :=
  repeat match goal with
  | |- context [?a =? ?b] =>
      first [ replace (a =? b) with true by (symmetry; apply Z.eqb_eq; lia)
            | replace (a =? b) with false by (symmetry; apply Z.eqb_neq; lia) ]
  | |- context [?a <? ?b] =>
      first [ replace (a <? b) with true by (symmetry; apply Z.ltb_lt; lia)
            | replace (a <? b) with false by (symmetry; apply Z.ltb_ge; lia) ]
  | |- context [?a <=? ?b] =>
      first [ replace (a <=? b) with true by (symmetry; apply Z.leb_le; lia)
            | replace (a <=? b) with false by (symmetry; apply Z.leb_gt; lia) ]
  end.

Lemma at_index_Some {A} (l : list A) i :
  0 <= i < len l -> exists x, at_index l i = Some x.
Proof.
  intros [H0 H1]. unfold at_index, len in *.
  destruct (i <? 0) eqn:E; [apply Z.ltb_lt in E; lia|].
  destruct (nth_error l (Z.to_nat i)) eqn:En; eauto.
  apply nth_error_None in En. lia.
Qed.

Lemma dispatch_flush hd p h f :
  dispatch hd p (h, f) = Some (flush p (run hd f h)).
Proof. unfold dispatch. apply rerender_flush. Qed.

Ltac hsimpl :=
  cbn [index showIntro showOutro introShownRef stepsRef memo_current
       deps_reset deps_open deps_enter log props f_index f_showIntro
       f_showOutro current f_total fst snd changed same_reset same_open
       same_enter same_memo Bool.eqb andb orb negb open steps intro outro
       onClose].

Ltac unfold_pass :=
  unfold pass_index, pass_showIntro, pass_showOutro, pass_latch, pass_log,
    ran_reset, ran_open, ran_enter, memo_value, render, first_enter.

Ltac unfold_run :=
  unfold run, handleNext, handlePrev, handleOutroPrev, handleIntroNext,
    handleOutroNext, handleClose, updateIndex, setIndex, setShowIntro,
    setShowOutro, set_introShownRef.

Lemma if_same {A} (c : bool) (x : A) : (if c then x else x) = x.
Proof. now destruct c. Qed.

Ltac step_eval :=
  repeat (progress (hsimpl;
                    rewrite ?call_eq, ?same_ref_refl, ?eqb_same, ?Z.eqb_refl,
                      ?andb_false_r, ?andb_true_r, ?orb_false_r, ?orb_true_r,
                      ?if_same;
                    decide_Z)).



Lemma click_offered a hd p h f :
  offered (view f) a = Some hd ->
  click a p (h, f) = Some (flush p (run hd f h)).
Proof.
  intros H. unfold click. cbn [snd]. rewrite H. apply dispatch_flush.
Qed.

Lemma phase_step_offered f i :
  phase f = Step i ->
  offered (view f) close = Some HClose /\
  offered (view f) advance = Some HNext /\
  offered (view f) retreat = (if 0 <? i then Some HPrev else None).
Proof.
  unfold phase. destruct (view f) eqn:E; try discriminate.
  intros [= <-]. revert E. unfold view.
  repeat case_cond; try discriminate; intros [= <-]; auto.
Qed.

(** Closed statements about concrete sessions are proved by evaluation. *)
Ltac by_evaluation :=
  intros; repeat match goal with |- _ /\ _ => split end;
  vm_compute; reflexivity.

Ltac at_rest HR f p :=
  rewrite (rest_hooks_eq _ _ HR);
  destruct f as [p ?j ?si ?so ?cur ?tot];
  cbn [props f_index f_showIntro f_showOutro current] in *; subst.

Ltac eval_run := unfold flush; unfold_run; step_eval.

Ltac rw_open :=
  repeat match goal with
         | H : open ?p = _ |- context [open ?p] => rewrite H
         end.

Ltac eval_pass :=
  rewrite pass_eq; unfold pending; unfold_pass; rw_open; step_eval.

(** * The navigation machine *)

(** C2, as the code has it.  At [Step i], while the step shown is
    [steps[i]], [advance()] first invokes the [onNext] of that step,
    whatever comes next; then, with a further step, it moves to
    [Step (i+1)] and invokes that step's [onEnter]; else, with an outro,
    it moves to [Outro] and invokes the outro's [onEnter]; else it
    performs [close()]: the state is reset and the [onClose] of the props
    is invoked, and the tour is [Closed] as soon as the parent renders
    with [open] lowered. *)
Theorem advance_from_step p0 es h f i s :
  session p0 es = Some (h, f) -> phase f = Step i ->
  current f = Some s -> at_index (steps (props f)) i = Some s ->
  let p := props f in
  let next := calls (TourStep.onNext s) in
  offered (view f) advance = Some HNext /\
  (i + 1 < len (steps p) ->
   exists s' h' f',
     at_index (steps p) (i + 1) = Some s' /\
     click advance p (h, f) = Some (h', f') /\
     phase f' = Step (i + 1) /\
     current f' = Some s' /\
     log h' = log h ++ next ++ calls (TourStep.onEnter s')) /\
  (len (steps p) <= i + 1 -> forall o, outro p = Some o ->
   exists h' f',
     click advance p (h, f) = Some (h', f') /\
     phase f' = Outro /\
     log h' = log h ++ next ++ calls (TourOutro.onEnter o)) /\
  (len (steps p) <= i + 1 -> outro p = None ->
   run HNext f h = handleClose f (call (TourStep.onNext s) h) /\
   forall p', open p' = false ->
   exists h' f',
     click advance p' (h, f) = Some (h', f') /\
     phase f' = Closed /\ reset_state h' /\
     log h' = log h ++ next ++ calls (onClose p)).
Proof.
  intros Hs Hph Hcur Hat p next. pose proof (session_rest _ _ _ _ Hs) as HR.
  destruct (phase_step _ _ _ HR Hph)
    as (Ho & Hi & Hsi & Hso & _ & Hn & Hr).
  destruct (phase_step_offered _ _ Hph) as (_ & Hadv & _).
  split; [exact Hadv|].
  assert (Hclick : forall p', click advance p' (h, f)
                   = Some (flush p' (run HNext f h))).
  { intros p'. now apply click_offered. }
  subst p next. split; [|split].
  - intros Hlt.
    destruct (at_index_Some (steps (props f)) (i + 1)) as [s' Hs']; [lia|].
    exists s', (fst (flush (props f) (run HNext f h))),
           (snd (flush (props f) (run HNext f h))).
    split; [exact Hs'|].
    split; [rewrite Hclick, <- surjective_pairing; reflexivity|].
    at_rest HR f p. eval_run. cbn [step_onNext]. eval_pass.
    rewrite Hs'. cbn [step_onEnter].
    repeat split.
    + unfold phase, view. hsimpl. rewrite Ho. hsimpl.
      destruct Hso as [-> | ->]; [|destruct so]; destruct (intro p); reflexivity.
    + now rewrite <- !app_assoc.
  - intros Hge o Hout.
    exists (fst (flush (props f) (run HNext f h))),
           (snd (flush (props f) (run HNext f h))).
    split; [rewrite Hclick, <- surjective_pairing; reflexivity|].
    destruct Hso as [Hso|Hso]; [|congruence].
    at_rest HR f p. eval_run. cbn [step_onNext]. rewrite Hout. step_eval.
    eval_pass.
    split.
    + unfold phase, view. hsimpl. rewrite Ho, Hout. hsimpl.
      destruct (intro p); reflexivity.
    + now rewrite ?app_nil_r, <- ?app_assoc.
  - intros Hge Hout. split.
    + at_rest HR f p. unfold_run. step_eval. rewrite Hout. reflexivity.
    + intros p' Hclosed.
      exists (fst (flush p' (run HNext f h))),
             (snd (flush p' (run HNext f h))).
      split; [rewrite Hclick, <- surjective_pairing; reflexivity|].
      at_rest HR f p. eval_run. cbn [step_onNext]. rewrite Hout. step_eval.
      eval_pass.
      repeat split.
      * unfold phase, view. hsimpl. now rewrite Hclosed.
      * now rewrite ?app_nil_r, <- ?app_assoc.
Qed.

Lemma advance_from_step_witness :
  let p := Demo.tour true [Demo.A; Demo.B] None None in
  exists h f,
    session p [] = Some (h, f) /\ phase f = Step 0 /\
    exists h' f',
      click advance p (h, f) = Some (h', f') /\ phase f' = Step 1 /\
      current f' = Some Demo.B /\
      log h' = log h ++ ["A.onNext"; "B.onEnter"]%string.
Proof.
  intros p.
  assert (Hx : match session p [] with
               | Some (_, f) => props f = p /\ phase f = Step 0 /\
                                current f = Some Demo.A
               | None => False
               end) by (vm_compute; repeat split; reflexivity).
  destruct (session p []) as [[h f]|] eqn:Hs; [|contradiction].
  destruct Hx as (Hf & Hp & Hc). exists h, f.
  split; [reflexivity|]. split; [exact Hp|].
  assert (Hat : at_index (steps (props f)) 0 = Some Demo.A)
    by (rewrite Hf; reflexivity).
  destruct (advance_from_step p _ h f 0 Demo.A Hs Hp Hc Hat) as (_ & H & _).
  rewrite Hf in H.
  destruct H as (s' & h' & f' & H0 & H1 & H2 & H3 & H4);
    [vm_compute; reflexivity|].
  assert (Es : Some s' = Some Demo.B) by (rewrite <- H0; reflexivity).
  injection Es as ->.
  exists h', f'. repeat split; assumption.
Defined.

(** C2 fails as stated.  The last branch does not close the tour by
    itself: [open] is a prop, and when the parent keeps it raised after
    the [onClose] call, the tour is not [Closed] but back at [Step 0],
    whose [onEnter] is invoked again. *)
Lemma advance_past_last_step_stays_open :
  let p := Demo.tour true [Demo.A; Demo.B] None None in
  observe (session p [Click advance p])
  = Some (Step 1, ["A.onEnter"; "A.onEnter"; "A.onNext"; "B.onEnter"]%string) /\
  option_map (fun m => offered (view (snd m)) advance)
             (session p [Click advance p])
  = Some (Some HNext) /\
  observe (session p [Click advance p; Click advance p])
  = Some (Step 0, ["A.onEnter"; "A.onEnter"; "A.onNext"; "B.onEnter";
                   "B.onNext"; "onClose"; "A.onEnter"]%string).
Proof. by_evaluation. Qed.

(** The step shown is memoised on [open, showIntro, index] (lines
    125-128): after a render that replaces the steps and keeps the index,
    the step shown is still the replaced one, and [advance()] invokes its
    [onNext], not that of the new [steps[i]].  C2 is stated for the case
    where the two agree. *)
Lemma advance_invokes_onNext_of_replaced_step :
  let p := Demo.tour true [Demo.A; Demo.B] None None in
  let p' := Demo.tour true [Demo.C; Demo.D] None None in
  option_map (fun m => (phase (snd m), current (snd m),
                        at_index (steps (props (snd m))) 0))
             (session p [Render p'])
  = Some (Step 0, Some Demo.A, Some Demo.C) /\
  observe (session p [Render p'; Click advance p'])
  = Some (Step 1, ["A.onEnter"; "A.onEnter"; "A.onNext"; "D.onEnter"]%string).
Proof. by_evaluation. Qed.

(** C4, as the code has it.  At [Step i] with [i > 0], [retreat()] moves
    to [Step (i-1)] and invokes no [onNext]; the step retreated into
    becomes active, so its [onEnter] is invoked.  At [Step 0] no backward
    action is offered, a click on it changes nothing, and [handlePrev]
    itself returns without a state change or a callback. *)
Theorem retreat_from_step p0 es h f i :
  session p0 es = Some (h, f) -> phase f = Step i ->
  let p := props f in
  (0 < i ->
   exists h' f',
     click retreat p (h, f) = Some (h', f') /\
     phase f' = Step (i - 1) /\
     current f' = at_index (steps p) (i - 1) /\
     log h' = log h ++ calls (step_onEnter (at_index (steps p) (i - 1)))) /\
  (i = 0 ->
   offered (view f) retreat = None /\
   click retreat p (h, f) = Some (h, f) /\
   run HPrev f h = h).
Proof.
  intros Hs Hph p. pose proof (session_rest _ _ _ _ Hs) as HR.
  destruct (phase_step _ _ _ HR Hph)
    as (Ho & Hi & Hsi & Hso & [c Hc] & Hn & Hr).
  destruct (phase_step_offered _ _ Hph) as (_ & _ & Hret).
  subst p. split.
  - intros Hpos.
    assert (Hoff : offered (view f) retreat = Some HPrev).
    { rewrite Hret. now decide_Z. }
    exists (fst (flush (props f) (run HPrev f h))),
           (snd (flush (props f) (run HPrev f h))).
    split; [rewrite (click_offered _ _ _ _ _ Hoff), <- surjective_pairing;
            reflexivity|].
    at_rest HR f p. eval_run. eval_pass.
    destruct (at_index_Some (steps p) (i - 1)) as [s Hs']; [lia|].
    replace (Z.max 0 (i - 1)) with (i - 1) by lia. step_eval.
    split; [|split; reflexivity].
    unfold phase, view. hsimpl. rewrite Ho, Hs'. hsimpl.
    destruct Hso as [-> | ->]; [|destruct so]; destruct (intro p); reflexivity.
  - intros ->.
    assert (Hoff : offered (view f) retreat = None) by exact Hret.
    repeat split; [exact Hoff| |].
    + unfold click. cbn [snd]. now rewrite Hoff.
    + unfold run, handlePrev. rewrite Hi. reflexivity.
Qed.

Lemma retreat_from_step_witness :
  let p := Demo.tour true [Demo.A; Demo.B] None None in
  exists h f,
    session p [Click advance p] = Some (h, f) /\ phase f = Step 1 /\
    exists h' f',
      click retreat p (h, f) = Some (h', f') /\ phase f' = Step 0 /\
      log h' = log h ++ calls (TourStep.onEnter Demo.A).
Proof.
  intros p.
  assert (Hx : match session p [Click advance p] with
               | Some (_, f) => props f = p /\ phase f = Step 1
               | None => False
               end) by (vm_compute; split; reflexivity).
  destruct (session p [Click advance p]) as [[h f]|] eqn:Hs; [|contradiction].
  destruct Hx as [Hf Hp]. exists h, f.
  split; [reflexivity|]. split; [exact Hp|].
  destruct (retreat_from_step p _ h f 1 Hs Hp) as (H & _).
  rewrite Hf in H.
  destruct H as (h' & f' & H1 & H2 & _ & H3); [lia|].
  exists h', f'. repeat split; assumption.
Defined.

(** C4 fails as stated: retreating from [Step 1] of the tour [A; B]
    invokes [A.onEnter]. *)
Lemma retreat_invokes_onEnter :
  let p := Demo.tour true [Demo.A; Demo.B] None None in
  let before := ["A.onEnter"; "A.onEnter"; "A.onNext"; "B.onEnter"]%string in
  observe (session p [Click advance p]) = Some (Step 1, before) /\
  observe (session p [Click advance p; Click retreat p])
  = Some (Step 0, before ++ ["A.onEnter"]%string).
Proof. by_evaluation. Qed.

Lemma len_cons {A} (x : A) l : len (x :: l) = len l + 1.
Proof. unfold len. cbn [List.length]. lia. Qed.

Lemma len_nonneg {A} (l : list A) : 0 <= len l.
Proof. unfold len. lia. Qed.

(** C3, as the code has it.  At [Step i] with [i > 0], when the parent
    passes a list of length at most [i], the index is reset to 0 and no
    [onNext] is invoked; the first step of the new list becomes active, so
    its [onEnter] is invoked; nothing is rendered when the new list is
    empty. *)
Theorem shrink_resets_index p0 es h f i ss :
  session p0 es = Some (h, f) -> phase f = Step i ->
  0 < i -> len ss <= i ->
  exists h' f',
    rerender (with_steps ss (props f)) h = Some (h', f') /\
    index h' = 0 /\
    phase f' = (if len ss =? 0 then Closed else Step 0) /\
    current f' = at_index ss 0 /\
    log h' = log h ++ calls (step_onEnter (at_index ss 0)).
Proof.
  intros Hs Hph Hpos Hle. pose proof (session_rest _ _ _ _ Hs) as HR.
  destruct (phase_step _ _ _ HR Hph)
    as (Ho & Hi & Hsi & Hso & [c Hc] & Hn & Hr).
  remember (with_steps ss (props f)) as p' eqn:Hp'.
  assert (Ho' : open p' = true) by (subst p'; exact Ho).
  assert (Hss : steps p' = ss) by (now subst p').
  assert (Hin : intro p' = intro (props f)) by (now subst p').
  assert (Hou : outro p' = outro (props f)) by (now subst p').
  assert (Hre : intro_ref p' = intro_ref (props f)).
  { unfold intro_ref. now rewrite Hin. }
  clear Hp'.
  exists (fst (flush p' h)), (snd (flush p' h)).
  split; [rewrite rerender_flush, <- surjective_pairing; reflexivity|].
  at_rest HR f p. unfold flush.
  rewrite pass_eq; unfold pending; unfold_pass; rw_open; rewrite Hre.
  step_eval.
  rewrite pass_eq; unfold_pass; rw_open; rewrite ?Hre. step_eval.
  split; [reflexivity|]. split; [|split; [reflexivity|]].
  - unfold phase, view. hsimpl. rewrite Ho', ?Hin, ?Hou. hsimpl.
    destruct (steps p') as [|s ss]; hsimpl.
    + destruct Hso as [-> | ->]; [|destruct so]; reflexivity.
    + rewrite len_cons. pose proof (len_nonneg ss). decide_Z.
      change (at_index (s :: ss) 0) with (Some s).
      destruct Hso as [-> | ->]; [|destruct so]; reflexivity.
  - now rewrite ?app_nil_r, <- ?app_assoc.
Qed.

Lemma shrink_resets_index_witness :
  let p := Demo.bare true [Demo.A; Demo.B; Demo.C; Demo.D; Demo.E] None None in
  let es := [Click advance p; Click advance p; Click advance p;
             Click advance p] in
  exists h f,
    session p es = Some (h, f) /\ phase f = Step 4 /\
    exists h' f',
      rerender (with_steps [Demo.A; Demo.B] p) h = Some (h', f') /\
      index h' = 0 /\ phase f' = Step 0 /\
      log h' = log h ++ calls (TourStep.onEnter Demo.A).
Proof.
  intros p es.
  assert (Hx : match session p es with
               | Some (_, f) => props f = p /\ phase f = Step 4
               | None => False
               end) by (vm_compute; split; reflexivity).
  destruct (session p es) as [[h f]|] eqn:Hs; [|contradiction].
  destruct Hx as [Hf Hp]. exists h, f.
  split; [reflexivity|]. split; [exact Hp|].
  destruct (shrink_resets_index p _ h f 4 [Demo.A; Demo.B] Hs Hp)
    as (h' & f' & H1 & H2 & H3 & _ & H4);
    [lia|vm_compute; discriminate|].
  rewrite Hf in H1.
  exists h', f'. repeat split; assumption.
Defined.

(** C3 fails as stated: when the list [A; B; C; D; E] shrinks to [A; B]
    at [Step 4], the reset to [Step 0] invokes [A.onEnter]. *)
Lemma shrink_invokes_onEnter :
  let p := Demo.bare true [Demo.A; Demo.B; Demo.C; Demo.D; Demo.E] None None in
  let es := [Click advance p; Click advance p; Click advance p;
             Click advance p] in
  let before := ["A.onEnter"; "A.onEnter"; "A.onNext"; "B.onEnter";
                 "B.onNext"; "C.onEnter"; "C.onNext"; "D.onEnter";
                 "D.onNext"; "E.onEnter"]%string in
  observe (session p es) = Some (Step 4, before) /\
  observe (session p (es ++ [Render (with_steps [Demo.A; Demo.B] p)]))
  = Some (Step 0, before ++ ["A.onEnter"]%string).
Proof. by_evaluation. Qed.

Lemma phase_outro h f :
  Rest h f -> phase f = Outro ->
  open (props f) = true /\ f_showOutro f = true /\
  (exists o, outro (props f) = Some o) /\
  (f_showIntro f = false \/ intro (props f) = None) /\
  offered (view f) retreat
  = (if 0 <? f_index f then Some HOutroPrev else None) /\
  0 <= f_index f /\
  (f_index f < len (steps (props f)) \/ f_index f = 0).
Proof.
  intros HR. unfold phase, view.
  destruct (open (props f)) eqn:Ho; cbn; [|discriminate].
  destruct (rest_range _ _ HR Ho) as [Hn Hr].
  destruct (f_showIntro f), (intro (props f)), (f_showOutro f),
    (outro (props f)), (current f); try discriminate;
    intros _; repeat split; eauto.
Qed.

(** C5, as the code has it.  From [Outro], with the intro flag down,
    [retreat()] lowers the outro flag and moves the index back by one: it
    is offered only when the index is above 0, and then leads to
    [Step (index - 1)], whose [onEnter] is invoked.  With the index at 0,
    which is the case whenever the list is empty, no backward action is
    offered and a click on it changes nothing; [handleOutroPrev] itself
    would then only lower the outro flag. *)
Theorem retreat_from_outro p0 es h f :
  session p0 es = Some (h, f) -> phase f = Outro -> f_showIntro f = false ->
  let p := props f in
  let i := f_index f in
  (0 < i ->
   exists h' f',
     click retreat p (h, f) = Some (h', f') /\
     phase f' = Step (i - 1) /\
     current f' = at_index (steps p) (i - 1) /\
     log h' = log h ++ calls (step_onEnter (at_index (steps p) (i - 1)))) /\
  (i = 0 ->
   offered (view f) retreat = None /\ click retreat p (h, f) = Some (h, f)) /\
  (steps p = [] ->
   i = 0 /\ run HOutroPrev f h = setShowOutro false h).
Proof.
  intros Hs Hph Hsi p i. pose proof (session_rest _ _ _ _ Hs) as HR.
  destruct (phase_outro _ _ HR Hph)
    as (Ho & Hso & [o Hou] & _ & Hret & Hn & Hr).
  subst p i. split; [|split].
  - intros Hpos.
    assert (Hoff : offered (view f) retreat = Some HOutroPrev).
    { rewrite Hret. now decide_Z. }
    exists (fst (flush (props f) (run HOutroPrev f h))),
           (snd (flush (props f) (run HOutroPrev f h))).
    split; [rewrite (click_offered _ _ _ _ _ Hoff), <- surjective_pairing;
            reflexivity|].
    at_rest HR f p. eval_run.
    replace (Z.max 0 (j - 1)) with (j - 1) by lia. step_eval.
    eval_pass.
    destruct (at_index_Some (steps p) (j - 1)) as [s Hs']; [lia|].
    split; [|split; reflexivity].
    unfold phase, view. hsimpl. rewrite Ho, Hs'. reflexivity.
  - intros Hi.
    assert (Hoff : offered (view f) retreat = None).
    { rewrite Hret, Hi. reflexivity. }
    split; [exact Hoff|]. unfold click. cbn [snd]. now rewrite Hoff.
  - intros Hnil. rewrite Hnil in Hr. change (len []) with 0 in Hr.
    split; [lia|].
    unfold run, handleOutroPrev. rewrite (rest_steps _ _ HR), Hnil.
    reflexivity.
Qed.

Lemma retreat_from_outro_witness :
  let p := Demo.tour true [Demo.A; Demo.B] None (Some Demo.O) in
  exists h f,
    session p [Click advance p; Click advance p] = Some (h, f) /\
    phase f = Outro /\ f_index f = 1 /\
    exists h' f',
      click retreat p (h, f) = Some (h', f') /\ phase f' = Step 0 /\
      log h' = log h ++ calls (TourStep.onEnter Demo.A).
Proof.
  intros p.
  assert (Hx : match session p [Click advance p; Click advance p] with
               | Some (_, f) =>
                   props f = p /\ phase f = Outro /\ f_showIntro f = false /\
                   f_index f = 1
               | None => False
               end) by (vm_compute; repeat split; reflexivity).
  destruct (session p _) as [[h f]|] eqn:Hs; [|contradiction].
  destruct Hx as (Hf & Hp & Hsi & Hi). exists h, f.
  split; [reflexivity|]. split; [exact Hp|]. split; [exact Hi|].
  destruct (retreat_from_outro p _ h f Hs Hp Hsi) as (H & _).
  rewrite Hf, Hi in H.
  destruct H as (h' & f' & H1 & H2 & _ & H3); [lia|].
  exists h', f'. repeat split; assumption.
Defined.

(** C5 fails as stated: in the tour [A; B] with an outro, retreating from
    [Outro] leads to [Step 0], not to the last step [Step 1]. *)
Lemma retreat_from_outro_skips_last_step :
  let p := Demo.tour true [Demo.A; Demo.B] None (Some Demo.O) in
  let es := [Click advance p; Click advance p] in
  option_map fst (observe (session p es)) = Some Outro /\
  option_map fst (observe (session p (es ++ [Click retreat p])))
  = Some (Step 0) /\
  Step 0 <> Step (Z.max 0 (len (steps p) - 1)).
Proof.
  split; [by_evaluation|]. split; [by_evaluation|]. vm_compute. discriminate.
Qed.

Lemma view_offers_close f hd :
  offered (view f) close = Some hd -> hd = HClose.
Proof.
  unfold view. repeat case_cond; cbn; congruence.
Qed.

(** C6, as the code has it.  [close()] resets the index to 0, lowers both
    screen flags and clears the enter-once latch, and it invokes the
    [onClose] of the component's props when defined, whatever the phase;
    on any screen that is shown it is the handler of the close button, and
    the tour is [Closed] as soon as the parent renders with [open]
    lowered, with no further callback. *)
Theorem close_resets p0 es h f p' :
  session p0 es = Some (h, f) -> phase f <> Closed -> open p' = false ->
  offered (view f) close = Some HClose /\
  (let h1 := handleClose f h in
   reset_state h1 /\ log h1 = log h ++ calls (onClose (props f))) /\
  exists h' f',
    click close p' (h, f) = Some (h', f') /\
    phase f' = Closed /\ reset_state h' /\
    log h' = log h ++ calls (onClose (props f)).
Proof.
  intros Hs Hph Hcl. pose proof (session_rest _ _ _ _ Hs) as HR.
  assert (Hoff : offered (view f) close = Some HClose).
  { unfold phase in Hph. destruct (view f) eqn:E; try reflexivity.
    - now contradiction Hph.
    - cbn. apply f_equal. eapply view_offers_close. rewrite E. reflexivity.
    - cbn. apply f_equal. eapply view_offers_close. rewrite E. reflexivity.
    - cbn. apply f_equal. eapply view_offers_close. rewrite E. reflexivity. }
  pose proof (offered_open _ _ _ Hoff) as Ho.
  split; [exact Hoff|]. split.
  - unfold handleClose, reset_state. rewrite call_eq. cbn. auto.
  - exists (fst (flush p' (run HClose f h))), (snd (flush p' (run HClose f h))).
    split; [rewrite (click_offered _ _ _ _ _ Hoff), <- surjective_pairing;
            reflexivity|].
    at_rest HR f p. eval_run. eval_pass.
    split; [|split]; [|unfold reset_state; cbn; auto|].
    + unfold phase, view. hsimpl. now rewrite Hcl.
    + now rewrite ?app_nil_r, <- ?app_assoc.
Qed.

Lemma close_resets_witness :
  let p := Demo.tour true [Demo.A] (Some (Demo.I 1)) (Some Demo.O) in
  let p' := Demo.tour false [Demo.A] (Some (Demo.I 1)) (Some Demo.O) in
  exists h f,
    session p [] = Some (h, f) /\ phase f = Intro /\
    exists h' f',
      click close p' (h, f) = Some (h', f') /\ phase f' = Closed /\
      reset_state h' /\ log h' = log h ++ ["onClose"]%string.
Proof.
  intros p p'.
  assert (Hx : match session p [] with
               | Some (_, f) => props f = p /\ phase f = Intro
               | None => False
               end) by (vm_compute; repeat split; reflexivity).
  destruct (session p _) as [[h f]|] eqn:Hs; [|contradiction].
  destruct Hx as (Hf & Hp). exists h, f.
  split; [reflexivity|]. split; [exact Hp|].
  destruct (close_resets p _ h f p' Hs) as (_ & _ & H);
    [rewrite Hp; discriminate|reflexivity|].
  rewrite Hf in H. exact H.
Defined.

(** C6 fails as stated: closing the tour on its intro screen, whose
    descriptor defines [onClose], invokes the [onClose] of the props and
    not the descriptor's; and when the parent does not lower [open], the
    tour shows [Step 0] instead of being [Closed]. *)
Lemma close_ignores_descriptor_onClose :
  let p := Demo.tour true [Demo.A] (Some (Demo.I 1)) (Some Demo.O) in
  let p' := Demo.tour false [Demo.A] (Some (Demo.I 1)) (Some Demo.O) in
  TourIntro.onClose (Demo.I 1) = Some "intro.onClose"%string /\
  observe (session p []) = Some (Intro, ["intro.onEnter"; "A.onEnter"]%string) /\
  observe (session p [Click close p'])
  = Some (Closed, ["intro.onEnter"; "A.onEnter"; "onClose"]%string) /\
  observe (session p [Click close p])
  = Some (Step 0, ["intro.onEnter"; "A.onEnter"; "onClose"; "A.onEnter"]%string).
Proof. by_evaluation. Qed.

(** ** Tooltip placement and keyboard *)

(** C8, as the code has it.  The horizontal position is
    [clamp(left, 16, max(16, viewportWidth - 320))]: it lies in
    [16, max(16, viewportWidth - 320)], hence in
    [16, viewportWidth - 320] whenever the viewport is at least 336 wide;
    the vertical position is [min(bottom + 12, viewportHeight - 160)] and
    never exceeds [viewportHeight - 160]. *)
Theorem tooltip_placement_bounds (rect : HighlightTour.DOMRect)
  (viewportWidth viewportHeight : Q) :
  let x := HighlightTour.tooltipLeft rect viewportWidth in
  let y := HighlightTour.tooltipTop rect viewportHeight in
  (x == Qmin (Qmax (HighlightTour.left rect) 16)
             (Qmax 16 (viewportWidth - 320)))%Q /\
  (y == Qmin (HighlightTour.bottom rect + 12) (viewportHeight - 160))%Q /\
  (16 <= x)%Q /\
  (x <= Qmax 16 (viewportWidth - 320))%Q /\
  (336 <= viewportWidth -> x <= viewportWidth - 320)%Q /\
  (y <= viewportHeight - 160)%Q.
Proof.
  cbn zeta. unfold HighlightTour.tooltipLeft, HighlightTour.tooltipTop.
  split; [reflexivity|]. split; [reflexivity|].
  split; [|split; [|split]].
  - apply Q.min_glb; [apply Q.le_max_r|apply Q.le_max_l].
  - apply Q.le_min_r.
  - intros Hw. eapply Qle_trans; [apply Q.le_min_r|].
    apply Q.max_lub; [|apply Qle_refl]. lra.
  - apply Q.le_min_r.
Qed.

Lemma tooltip_placement_bounds_witness :
  let rect := HighlightTour.mkRect 1270 700 10 20 in
  (336 <= 1280)%Q /\
  (16 <= HighlightTour.tooltipLeft rect 1280)%Q /\
  (HighlightTour.tooltipLeft rect 1280 <= 1280 - 320)%Q /\
  (HighlightTour.tooltipTop rect 720 <= 720 - 160)%Q.
Proof.
  intros rect.
  assert (Hw : (336 <= 1280)%Q) by (vm_compute; discriminate).
  destruct (tooltip_placement_bounds rect 1280 720)
    as (_ & _ & H1 & _ & H2 & H3).
  repeat split; [exact Hw|exact H1|exact (H2 Hw)|exact H3].
Defined.

(** C8 fails as stated: in a viewport 300 wide the horizontal position is
    16, which is above [viewportWidth - 320]. *)
Lemma tooltip_left_exceeds_narrow_viewport :
  let rect := HighlightTour.mkRect 100 0 10 10 in
  (HighlightTour.tooltipLeft rect 300 == 16)%Q /\
  ~ (HighlightTour.tooltipLeft rect 300 <= 300 - 320)%Q.
Proof.
  split.
  - vm_compute. reflexivity.
  - vm_compute. intros H. apply H. reflexivity.
Qed.


(** What the keyboard does in each phase.  Keys are handled by the
    HighlightTour of a step and by nothing else.  At [Step i], Escape
    invokes [close()], ArrowRight invokes [advance()] (a forward action
    always exists there), ArrowLeft invokes [retreat()] exactly when a
    backward action exists ([i > 0]), each handled key suppresses the
    default handling, and an ArrowLeft at [Step 0] is left alone.  On the
    intro and outro screens, and while nothing is rendered, no key is
    handled. *)
Lemma keys_handled_by_step_overlay (f : Frame) :
  match phase f with
  | Step i =>
      keypress (view f) "Escape" = HighlightTour.mkKey true (Some HClose) /\
      offered (view f) close = Some HClose /\
      keypress (view f) "ArrowRight" = HighlightTour.mkKey true (Some HNext) /\
      offered (view f) advance = Some HNext /\
      keypress (view f) "ArrowLeft"
      = (if 0 <? i then HighlightTour.mkKey true (Some HPrev)
         else HighlightTour.mkKey false None) /\
      offered (view f) retreat = (if 0 <? i then Some HPrev else None)
  | _ =>
      forall key, keypress (view f) key = HighlightTour.mkKey false None
  end.
Proof.
  unfold phase, view.
  destruct (open (props f)); cbn; [|reflexivity].
  destruct (f_showIntro f), (intro (props f)), (f_showOutro f),
    (outro (props f)), (current f); cbn; try reflexivity;
    destruct (0 <? f_index f); cbn; repeat split; reflexivity.
Qed.

(** C9 fails on the code.  The tour is open on its intro screen, and
    later on its outro screen; [close()] and [advance()] are offered on
    both, and [retreat()] on the outro, but the [keydown] listener is
    installed by HighlightTour alone (HighlightTour.tsx, lines 130-150),
    which StepTour renders only for a step: Escape, ArrowRight and
    ArrowLeft are not handled, their default handling is not suppressed,
    and the session goes on as if no key had been pressed. *)
Theorem keys_ignored_on_intro_and_outro :
  let p := Demo.tour true [Demo.A; Demo.B] (Some (Demo.I 1)) (Some Demo.O) in
  let to_outro := [Click advance p; Click advance p; Click advance p] in
  let ignored := HighlightTour.mkKey false (@None Handler) in
  let keys (m : option (Hooks * Frame)) :=
    option_map (fun m => (keypress (view (snd m)) "Escape",
                          keypress (view (snd m)) "ArrowRight",
                          keypress (view (snd m)) "ArrowLeft")) m in
  let actions (m : option (Hooks * Frame)) :=
    option_map (fun m => (offered (view (snd m)) close,
                          offered (view (snd m)) advance,
                          offered (view (snd m)) retreat)) m in
  option_map fst (observe (session p [])) = Some Intro /\
  actions (session p []) = Some (Some HClose, Some HIntroNext, None) /\
  keys (session p []) = Some (ignored, ignored, ignored) /\
  observe (session p [Key "Escape" p]) = observe (session p []) /\
  observe (session p [Key "ArrowRight" p]) = observe (session p []) /\
  option_map fst (observe (session p to_outro)) = Some Outro /\
  actions (session p to_outro)
  = Some (Some HClose, Some HOutroNext, Some HOutroPrev) /\
  keys (session p to_outro) = Some (ignored, ignored, ignored) /\
  observe (session p (to_outro ++ [Key "Escape" p]))
  = observe (session p to_outro) /\
  observe (session p (to_outro ++ [Key "ArrowRight" p]))
  = observe (session p to_outro) /\
  observe (session p (to_outro ++ [Key "ArrowLeft" p]))
  = observe (session p to_outro).
Proof. by_evaluation. Qed.

Ltac log_eq :=
  cbn [app]; rewrite ?app_nil_r, <- ?app_assoc; cbn [app];
  rewrite ?app_nil_r; reflexivity.

(** ** Opening the tour *)

Lemma at_index_0 {A} (l : list A) :
  at_index l 0 = match l with [] => None | x :: _ => Some x end.
Proof. now destruct l. Qed.

(** A mount with [open] raised: the phase it settles in and the callbacks
    it invokes.  Without an intro, the [onEnter] of the first step is
    invoked by the effect of lines 90-108 and again by the effect of
    lines 110-113. *)
Lemma mount_open p :
  open p = true ->
  exists h f,
    mount p = Some (h, f) /\
    phase f = match intro p with
              | Some _ => Intro
              | None => if len (steps p) =? 0 then Closed else Step 0
              end /\
    log h = calls (first_enter p)
              ++ calls (step_onEnter (at_index (steps p) 0)).
Proof.
  intros Ho. unfold mount.
  exists (fst (flush p (init p))), (snd (flush p (init p))).
  split; [rewrite rerender_flush, <- surjective_pairing; reflexivity|].
  unfold flush, init. eval_pass. unfold first_enter.
  destruct (intro p) as [it|] eqn:Hit; step_eval.
  - eval_pass. split; [|log_eq].
    unfold phase, view. hsimpl. now rewrite Ho, Hit.
  - split; [|log_eq].
    unfold phase, view. hsimpl. rewrite Ho, ?Hit. hsimpl.
    rewrite at_index_0. destruct (steps p) as [|s ss]; [reflexivity|].
    rewrite len_cons. pose proof (len_nonneg ss). now decide_Z.
Qed.

(** Opening a mounted, closed tour with the steps it was last rendered
    with: the phase is as at a mount. *)
Lemma open_same_steps p0 es h f p :
  session p0 es = Some (h, f) -> open (props f) = false ->
  open p = true -> steps p = steps (props f) ->
  exists h' f',
    rerender p h = Some (h', f') /\
    phase f' = match intro p with
               | Some _ => Intro
               | None => if len (steps p) =? 0 then Closed else Step 0
               end.
Proof.
  intros Hs Hcl Ho Hst. pose proof (session_rest _ _ _ _ Hs) as HR.
  destruct (pre_closed _ (rest_pre _ _ HR) (intro_ref (props f)))
    as (Hi & Hsi & Hso & Hl).
  { now rewrite (rest_open _ _ HR), Hcl. }
  rewrite <- (rest_index _ _ HR) in Hi.
  rewrite <- (rest_showIntro _ _ HR) in Hsi.
  rewrite <- (rest_showOutro _ _ HR) in Hso.
  exists (fst (flush p h)), (snd (flush p h)).
  split; [rewrite rerender_flush, <- surjective_pairing; reflexivity|].
  at_rest HR f q. rewrite Hl. unfold flush. eval_pass. rewrite <- Hst.
  destruct (intro p) as [it|] eqn:Hit; step_eval.
  - eval_pass. unfold phase, view. hsimpl. now rewrite Ho, Hit.
  - unfold phase, view. hsimpl. rewrite Ho, ?Hit. hsimpl.
    rewrite at_index_0. destruct (steps p) as [|s ss]; [reflexivity|].
    rewrite len_cons. pose proof (len_nonneg ss). now decide_Z.
Qed.

(** While the tour is open with the latch set, a render with any intro
    object, the same steps and [open] still raised invokes nothing and
    changes no state: the latch keeps the initial [onEnter] from firing
    again. *)
Lemma rerender_latched p0 es h f p :
  session p0 es = Some (h, f) -> open (props f) = true ->
  introShownRef h = true ->
  open p = true -> steps p = steps (props f) ->
  exists h' f',
    rerender p h = Some (h', f') /\ log h' = log h /\
    index h' = index h /\ showIntro h' = showIntro h /\
    showOutro h' = showOutro h /\ introShownRef h' = true.
Proof.
  intros Hs Ho Hl Ho' Hst. pose proof (session_rest _ _ _ _ Hs) as HR.
  exists (fst (flush p h)), (snd (flush p h)).
  split; [rewrite rerender_flush, <- surjective_pairing; reflexivity|].
  at_rest HR f q. rewrite Hl. unfold flush. eval_pass. rewrite Hst.
  step_eval. repeat split; log_eq.
Qed.

(** C1 fails on the code.  Opening the one-step tour [A] without an intro
    invokes [A.onEnter] twice: once by the latched effect of lines 90-108
    and once more by the effect of lines 110-113 in the same commit. *)
Theorem initial_onEnter_invoked_twice :
  let p := Demo.bare true [Demo.A] None None in
  intro p = None /\
  observe (mount p) = Some (Step 0, ["A.onEnter"; "A.onEnter"]%string) /\
  observe (session (Demo.bare false [Demo.A] None None) [Render p])
  = Some (Step 0, ["A.onEnter"; "A.onEnter"]%string).
Proof. by_evaluation. Qed.

(** C7 fails on the code.  A tour mounted closed with no steps and then
    opened with the steps [A] renders nothing: the memoised [current] was
    read from the steps of the previous commit, so the phase is [Closed]
    although the list is not empty (and [A.onEnter] has been invoked). *)
Theorem open_with_new_steps_renders_nothing :
  let before := Demo.bare false [] None None in
  let after := Demo.bare true [Demo.A] None None in
  observe (session before []) = Some (Closed, []) /\
  observe (session before [Render after])
  = Some (Closed, ["A.onEnter"; "A.onEnter"]%string) /\
  option_map (fun m => (stepsRef (fst m), index (fst m), current (snd m)))
             (session before [Render after])
  = Some ([Demo.A], 0, None).
Proof. by_evaluation. Qed.

(** ** The two screen flags *)

Lemma flush_props p h : props (snd (flush p h)) = p.
Proof.
  unfold flush. rewrite (pass_eq p h).
  destruct (pending _ _); [rewrite pass_eq|]; reflexivity.
Qed.

(** The state a flush ends in is the state its first pass leaves. *)
Lemma flush_state p h :
  let h' := fst (flush p h) in
  index h' = pass_index p h /\ showIntro h' = pass_showIntro p h /\
  showOutro h' = pass_showOutro p h /\ introShownRef h' = pass_latch p h.
Proof.
  cbn zeta. unfold flush. rewrite (pass_eq p h).
  destruct (pending _ _); [|cbn; auto].
  apply quiet_pass, pass_index_cases.
Qed.

Lemma flush_ctl p h :
  showIntro h && showOutro h = false ->
  (open p = true -> deps_open h = Some (true, intro_ref p) ->
   introShownRef h = true) ->
  (open p = true -> introShownRef h = false -> showOutro h = false) ->
  forall h' f', flush p h = (h', f') -> Ctl h' f'.
Proof.
  intros Hx H1 H2 h' f' E.
  replace h' with (fst (flush p h)) by now rewrite E.
  replace f' with (snd (flush p h)) by now rewrite E.
  clear E. unfold Ctl. rewrite flush_props.
  destruct (flush_state p h) as (_ & -> & -> & ->).
  unfold pass_showIntro, pass_showOutro, pass_latch.
  destruct (ran_open p h) eqn:E3.
  - destruct (open p) eqn:Ho; cbn [negb andb]; [|auto].
    split; [reflexivity|].
    destruct (introShownRef h) eqn:Hl; [exact Hx|].
    rewrite (H2 eq_refl eq_refl). apply andb_false_r.
  - cbn [andb]. split; [|exact Hx].
    intros Ho. apply H1; [exact Ho|].
    apply changed_false in E3; [|exact same_open_eq]. now rewrite E3, Ho.
Qed.

Lemma available_next f :
  available f HNext -> exists c, current f = Some c.
Proof.
  unfold available, view.
  destruct (open (props f)); cbn.
  2: { intros [[a H]|[k H]]; [destruct a|]; discriminate. }
  destruct (f_showIntro f), (intro (props f)), (f_showOutro f),
    (outro (props f)), (current f); cbn; eauto;
    intros [[a H]|[k H]]; try discriminate;
    destruct a; cbn in H; try discriminate;
    destruct (0 <? f_index f); discriminate.
Qed.

Lemma run_flags hd f h :
  Rest h f -> available f hd ->
  showIntro h && showOutro h = false ->
  showIntro (run hd f h) && showOutro (run hd f h) = false.
Proof.
  intros HR Hav Hx.
  assert (Hn : hd = HNext -> showIntro h = false).
  { intros ->. destruct (available_next _ Hav) as [c Hc].
    destruct (rest_current _ _ _ HR Hc) as [_ Hs].
    now rewrite <- (rest_showIntro _ _ HR). }
  destruct hd; [| specialize (Hn eq_refl) | | | |]; clear Hav HR;
    destruct h; cbn in *; subst;
    unfold handleClose, handleNext, handlePrev, handleOutroPrev,
      handleIntroNext, handleOutroNext, handleClose;
    rewrite ?call_eq; cbn; repeat (case_cond; rewrite ?call_eq; cbn);
    auto using andb_false_r.
Qed.

Lemma react_ctl e h f h' f' :
  Rest h f -> Ctl h f -> answered e (h, f) = true ->
  react e (h, f) = Some (h', f') -> Ctl h' f'.
Proof.
  intros HR [Hl Hx] Hans.
  assert (Hrender : forall p,
             rerender p h = Some (h', f') -> Ctl h' f').
  { intros p. rewrite rerender_flush. intros [= E]. revert E.
    apply flush_ctl; [exact Hx| |].
    - intros _ Hd. apply Hl. rewrite (rest_open _ _ HR) in Hd. congruence.
    - intros _ Hlatch. destruct (open (props f)) eqn:Ho.
      + rewrite (Hl eq_refl) in Hlatch. discriminate.
      + apply (pre_closed _ (rest_pre _ _ HR) (intro_ref (props f))).
        now rewrite (rest_open _ _ HR), Ho. }
  assert (Hhandler : forall hd p,
             available f hd ->
             introShownRef (run hd f h) || negb (open p) = true ->
             dispatch hd p (h, f) = Some (h', f') -> Ctl h' f').
  { intros hd p Hav Ha. rewrite dispatch_flush. intros [= E]. revert E.
    apply flush_ctl.
    - now apply run_flags.
    - intros Ho _. rewrite Ho in Ha. cbn in Ha. now rewrite orb_false_r in Ha.
    - intros Ho Hlatch. rewrite Ho, Hlatch in Ha. discriminate. }
  destruct e as [p|a p|k p]; cbn [react fst].
  - apply Hrender.
  - unfold click. unfold answered in Hans. cbn [snd fst] in *.
    destruct (offered (view f) a) as [hd|] eqn:Ea.
    + apply Hhandler; [left; eauto|exact Hans].
    + intros [= <- <-]. split; assumption.
  - unfold press. unfold answered in Hans. cbn [snd fst] in *.
    destruct (HighlightTour.invoked _) as [hd|] eqn:Ea.
    + apply Hhandler; [right; eauto|exact Hans].
    + intros [= <- <-]. split; assumption.
Qed.

Lemma mount_ctl p h f : mount p = Some (h, f) -> Ctl h f.
Proof.
  unfold mount. rewrite rerender_flush. intros [= E]. revert E.
  apply flush_ctl; cbn; auto; discriminate.
Qed.

Lemma replay_ctl es : forall h f h' f',
  Rest h f -> Ctl h f -> controlled es (h, f) = true ->
  replay es (h, f) = Some (h', f') -> Ctl h' f'.
Proof.
  induction es as [|e es IH]; cbn [replay controlled]; intros h f h' f' HR HC.
  - now intros _ [= <- <-].
  - rewrite andb_true_iff. intros [Ha Hc].
    destruct (react e (h, f)) as [[h1 f1]|] eqn:E; cbn [and_then];
      [|discriminate].
    apply IH; [eapply react_rest|eapply react_ctl|exact Hc]; eauto.
Qed.

(** C10, as the code has it.  In every session in which the parent lowers
    [open] whenever a handler has closed the tour, the intro flag and the
    outro flag are never both raised. *)
Theorem flags_exclusive_when_controlled p0 es h f :
  session p0 es = Some (h, f) -> controlled_session p0 es = true ->
  showIntro h && showOutro h = false.
Proof.
  unfold session, controlled_session.
  destruct (mount p0) as [[h0 f0]|] eqn:E; cbn [and_then]; [|discriminate].
  intros Hs Hc.
  eapply replay_ctl; eauto using mount_rest, mount_ctl.
Qed.

Lemma flags_exclusive_when_controlled_witness :
  let p := Demo.tour true [Demo.A] (Some (Demo.I 1)) (Some Demo.O) in
  let es := [Click advance p; Click advance p; Render p;
             Click close (Demo.tour false [Demo.A] (Some (Demo.I 2))
                                    (Some Demo.O))] in
  controlled_session p es = true /\
  exists h f, session p es = Some (h, f) /\
              showIntro h && showOutro h = false.
Proof.
  intros p es.
  assert (Hc : controlled_session p es = true) by (vm_compute; reflexivity).
  split; [exact Hc|].
  destruct (session p es) as [[h f]|] eqn:Hs.
  - exists h, f. split; [reflexivity|].
    exact (flags_exclusive_when_controlled p es h f Hs Hc).
  - exfalso. revert Hs. vm_compute. discriminate.
Defined.

(** C10 fails as stated.  The parent passes no [onClose] and keeps [open]
    raised: the tour is closed on its intro screen (which clears the
    latch), continues at [Step 0], advances into the outro, and a render
    with a fresh intro object then raises the intro flag while the outro
    flag is up. *)
Lemma both_flags_raised :
  let p := Demo.bare true [Demo.A] (Some (Demo.I 1)) (Some Demo.O) in
  let p' := Demo.bare true [Demo.A] (Some (Demo.I 2)) (Some Demo.O) in
  option_map (fun m => (showIntro (fst m), showOutro (fst m)))
             (session p [Click close p; Click advance p; Render p'])
  = Some (true, true).
Proof. by_evaluation. Qed.

(** * Further properties of the navigation machine *)

(** The render loop always settles: from any state of the hooks and for
    any props, [rerender] returns within React's update depth, and the
    frame it returns is the render of the state it returns. *)
Theorem rerender_returns p h :
  exists h' f',
    rerender p h = Some (h', f') /\ props f' = p /\
    f_index f' = index h' /\ f_showIntro f' = showIntro h' /\
    f_showOutro f' = showOutro h' /\ stepsRef h' = steps p.
Proof.
  exists (fst (flush p h)), (snd (flush p h)).
  split; [rewrite rerender_flush, <- surjective_pairing; reflexivity|].
  split; [apply flush_props|].
  unfold flush. rewrite (pass_eq p h).
  destruct (pending _ _) eqn:Ep.
  - pose proof (second_pass_quiet p h) as Hq. rewrite (pass_eq p h) in Hq.
    cbn [fst] in Hq. apply pending_false in Hq. revert Hq.
    rewrite pass_eq. cbn. intuition congruence.
  - apply pending_false in Ep. cbn in *. intuition congruence.
Qed.

(** After every session the index is a valid position: it is never
    negative, while the tour is open it is below the number of steps or 0,
    and the steps the handlers read are those of the last render. *)
Theorem session_index_in_range p0 es h f :
  session p0 es = Some (h, f) ->
  0 <= index h /\
  (open (props f) = true ->
   index h < len (steps (props f)) \/ index h = 0) /\
  stepsRef h = steps (props f).
Proof.
  intros Hs. pose proof (session_rest _ _ _ _ Hs) as HR.
  split; [apply (rest_pre _ _ HR)|]. split; [|apply (rest_steps _ _ HR)].
  intros Ho. rewrite <- (rest_index _ _ HR).
  now destruct (rest_range _ _ HR Ho).
Qed.

Lemma session_index_in_range_witness :
  let p := Demo.tour true [Demo.A; Demo.B] None None in
  exists h f,
    session p [Click advance p; Render (with_steps [Demo.A] p)] = Some (h, f) /\
    open (props f) = true /\ index h = 0.
Proof.
  intros p.
  assert (Hx : match session p [Click advance p;
                                Render (with_steps [Demo.A] p)] with
               | Some (_, f) => open (props f) = true /\
                                len (steps (props f)) = 1
               | None => False
               end) by (vm_compute; split; reflexivity).
  destruct (session p _) as [[h f]|] eqn:Hs; [|contradiction].
  destruct Hx as [Ho Hl]. exists h, f.
  split; [reflexivity|]. split; [exact Ho|].
  destruct (session_index_in_range p _ h f Hs) as (Hn & Hr & _).
  destruct (Hr Ho); lia.
Defined.

(** While [open] is lowered the tour is closed and reset: nothing is
    rendered, the index is 0, both screen flags and the latch are down, no
    action is offered and no key is handled, so a click or a key press
    changes nothing. *)
Theorem closed_is_reset p0 es h f :
  session p0 es = Some (h, f) -> open (props f) = false ->
  phase f = Closed /\ reset_state h /\
  (forall a p, offered (view f) a = None /\ click a p (h, f) = Some (h, f)) /\
  (forall k p, press k p (h, f) = Some (h, f)).
Proof.
  intros Hs Hcl. pose proof (session_rest _ _ _ _ Hs) as HR.
  assert (Hv : view f = VNull) by (unfold view; now rewrite Hcl).
  split; [unfold phase; now rewrite Hv|]. split.
  - apply (pre_closed _ (rest_pre _ _ HR) (intro_ref (props f))).
    now rewrite (rest_open _ _ HR), Hcl.
  - split.
    + intros a p. unfold click. cbn [snd]. rewrite Hv. now destruct a.
    + intros k p. unfold press. cbn [snd]. now rewrite Hv.
Qed.

Lemma closed_is_reset_witness :
  let p := Demo.tour true [Demo.A; Demo.B] None None in
  let p' := Demo.tour false [Demo.A; Demo.B] None None in
  exists h f,
    session p [Click advance p; Click close p'] = Some (h, f) /\
    phase f = Closed /\ reset_state h.
Proof.
  intros p p'.
  assert (Hx : match session p [Click advance p; Click close p'] with
               | Some (_, f) => open (props f) = false
               | None => False
               end) by (vm_compute; reflexivity).
  destruct (session p _) as [[h f]|] eqn:Hs; [|contradiction].
  exists h, f. split; [reflexivity|].
  destruct (closed_is_reset p _ h f Hs Hx) as (H1 & H2 & _).
  split; assumption.
Defined.

(** A render with unchanged props at rest is idle: no callback is invoked
    and no hook changes; only the total of the progress counter is read
    again from the steps. *)
Theorem rerender_same_props_is_idle p0 es h f :
  session p0 es = Some (h, f) ->
  rerender (props f) h
  = Some (h, mkFrame (props f) (f_index f) (f_showIntro f) (f_showOutro f)
                     (current f) (len (steps (props f)))).
Proof.
  intros Hs. pose proof (session_rest _ _ _ _ Hs) as HR.
  rewrite rerender_flush. f_equal.
  rewrite (rest_hooks_eq _ _ HR).
  destruct f as [p j si so cur tot];
    cbn [props f_index f_showIntro f_showOutro current] in *.
  unfold flush. rewrite pass_eq. unfold pending. unfold_pass. step_eval.
  rewrite !same_open_refl. step_eval.
  rewrite !app_nil_r. reflexivity.
Qed.

Lemma phase_ignores_total p i si so c t t' :
  phase (mkFrame p i si so c t) = phase (mkFrame p i si so c t').
Proof.
  unfold phase, view. cbn.
  destruct (open p); cbn; [|reflexivity].
  destruct si, (intro p), so, (outro p), c; reflexivity.
Qed.

Lemma rerender_same_props_is_idle_witness :
  let p := Demo.tour true [Demo.A; Demo.B] (Some (Demo.I 1)) None in
  exists h f,
    session p [Click advance p] = Some (h, f) /\
    exists f', rerender (props f) h = Some (h, f') /\ phase f' = phase f.
Proof.
  intros p.
  destruct (session p [Click advance p]) as [[h f]|] eqn:Hs.
  - exists h, f. split; [reflexivity|].
    eexists. split; [exact (rerender_same_props_is_idle p _ h f Hs)|].
    destruct f. apply phase_ignores_total.
  - exfalso. revert Hs. vm_compute. discriminate.
Defined.

(** Evaluate the flush of the goal once, to a pair of records. *)
Ltac flush_to tac :=
  match goal with
  | |- context [flush ?p ?x] =>
      let E := fresh "E" in
      eassert (E : flush p x = _);
      [ unfold flush; unfold_run; hsimpl; tac; step_eval; eval_pass;
        try eval_pass; reflexivity
      | rewrite E; clear E; cbn [fst snd] ]
  end.

Lemma phase_intro h f :
  Rest h f -> phase f = Intro ->
  open (props f) = true /\ f_showIntro f = true /\
  (exists it, intro (props f) = Some it) /\
  current f = None /\
  offered (view f) close = Some HClose /\
  offered (view f) advance = Some HIntroNext /\
  offered (view f) retreat = None /\
  0 <= f_index f /\
  (f_index f < len (steps (props f)) \/ f_index f = 0).
Proof.
  intros HR. unfold phase, view.
  destruct (open (props f)) eqn:Ho; cbn; [|discriminate].
  destruct (rest_range _ _ HR Ho) as [Hn Hr].
  destruct (current f) as [c|] eqn:Hc.
  - destruct (rest_current _ _ _ HR Hc) as [_ Hs]. rewrite Hs.
    destruct (f_showOutro f), (outro (props f)); discriminate.
  - destruct (f_showIntro f), (intro (props f)), (f_showOutro f),
      (outro (props f)); try discriminate; intros _; repeat split; eauto.
Qed.

(** From [Intro], [advance()] invokes the intro's [onNext] first and
    lowers the intro flag.  With steps it shows the step at the index (0
    after an opening) - or the outro screen, when the outro flag is up
    and an outro is given - and invokes the [onEnter] of the first step
    directly (line 171) and the [onEnter] of the step at the index
    through the effect of lines 110-113; without steps it performs
    [close()], and the tour is [Closed] once the parent lowers [open]. *)
Theorem advance_from_intro p0 es h f it :
  session p0 es = Some (h, f) -> phase f = Intro ->
  intro (props f) = Some it ->
  let p := props f in
  let i := f_index f in
  offered (view f) advance = Some HIntroNext /\
  (0 < len (steps p) ->
   exists h' f',
     click advance p (h, f) = Some (h', f') /\
     phase f' = match f_showOutro f, outro p with
                | true, Some _ => Outro
                | _, _ => Step i
                end /\
     current f' = at_index (steps p) i /\
     log h' = log h ++ calls (TourIntro.onNext it)
                ++ calls (step_onEnter (at_index (steps p) 0))
                ++ calls (step_onEnter (at_index (steps p) i))) /\
  (steps p = [] ->
   forall p', open p' = false ->
   exists h' f',
     click advance p' (h, f) = Some (h', f') /\
     phase f' = Closed /\ reset_state h' /\
     log h' = log h ++ calls (TourIntro.onNext it) ++ calls (onClose p)).
Proof.
  intros Hs Hph Hit p i. pose proof (session_rest _ _ _ _ Hs) as HR.
  destruct (phase_intro _ _ HR Hph)
    as (Ho & Hsi & _ & Hc & _ & Hadv & _ & Hn & Hr).
  split; [exact Hadv|]. subst p i. split.
  - intros Hlen.
    exists (fst (flush (props f) (run HIntroNext f h))),
           (snd (flush (props f) (run HIntroNext f h))).
    split; [rewrite (click_offered _ _ _ _ _ Hadv), <- surjective_pairing;
            reflexivity|].
    at_rest HR f p. flush_to ltac:(rewrite Hit).
    destruct (at_index_Some (steps p) j) as [s Hs']; [lia|].
    split; [|split; [reflexivity|log_eq]].
    unfold phase, view. hsimpl. rewrite Ho, Hs'. hsimpl.
    destruct so, (outro p); reflexivity.
  - intros Hnil p' Hcl.
    exists (fst (flush p' (run HIntroNext f h))),
           (snd (flush p' (run HIntroNext f h))).
    split; [rewrite (click_offered _ _ _ _ _ Hadv), <- surjective_pairing;
            reflexivity|].
    at_rest HR f p.
    flush_to ltac:(rewrite Hit, Hnil; change (@len TourStep.t []) with 0).
    split; [|split]; [|unfold reset_state; cbn; auto|log_eq].
    unfold phase, view. hsimpl. now rewrite Hcl.
Qed.

Lemma advance_from_intro_witness :
  let p := Demo.tour true [Demo.A; Demo.B] (Some (Demo.I 1)) None in
  exists h f,
    session p [] = Some (h, f) /\ phase f = Intro /\
    exists h' f',
      click advance p (h, f) = Some (h', f') /\ phase f' = Step 0 /\
      log h' = log h ++ ["intro.onNext"; "A.onEnter"; "A.onEnter"]%string.
Proof.
  intros p.
  assert (Hx : match session p [] with
               | Some (_, f) => props f = p /\ phase f = Intro /\
                                f_showOutro f = false /\ f_index f = 0
               | None => False
               end) by (vm_compute; repeat split; reflexivity).
  destruct (session p _) as [[h f]|] eqn:Hs; [|contradiction].
  destruct Hx as (Hf & Hp & Hso & Hi). exists h, f.
  split; [reflexivity|]. split; [exact Hp|].
  assert (Hit : intro (props f) = Some (Demo.I 1)) by now rewrite Hf.
  destruct (advance_from_intro p _ h f _ Hs Hp Hit) as (_ & H & _).
  rewrite Hf, Hi, Hso in H.
  destruct H as (h' & f' & H1 & H2 & _ & H3); [vm_compute; reflexivity|].
  exists h', f'. repeat split; assumption.
Defined.

(** From [Outro], [advance()] invokes the outro's [onNext] and then
    performs [close()]: the [onClose] of the props is invoked, and the
    tour is [Closed] and reset once the parent lowers [open]. *)
Theorem advance_from_outro p0 es h f o :
  session p0 es = Some (h, f) -> phase f = Outro ->
  outro (props f) = Some o ->
  offered (view f) advance = Some HOutroNext /\
  run HOutroNext f h = handleClose f (call (TourOutro.onNext o) h) /\
  forall p', open p' = false ->
  exists h' f',
    click advance p' (h, f) = Some (h', f') /\
    phase f' = Closed /\ reset_state h' /\
    log h' = log h ++ calls (TourOutro.onNext o)
               ++ calls (onClose (props f)).
Proof.
  intros Hs Hph Hou. pose proof (session_rest _ _ _ _ Hs) as HR.
  destruct (phase_outro _ _ HR Hph) as (Ho & Hso & _ & _ & _ & Hn & Hr).
  assert (Hadv : offered (view f) advance = Some HOutroNext).
  { revert Hph. unfold phase, view.
    destruct (open (props f)); cbn; [|discriminate].
    destruct (f_showIntro f), (intro (props f)), (f_showOutro f),
      (outro (props f)), (current f); cbn; try discriminate; reflexivity. }
  split; [exact Hadv|]. split.
  - unfold run, handleOutroNext. now rewrite Hou.
  - intros p' Hcl.
    exists (fst (flush p' (run HOutroNext f h))),
           (snd (flush p' (run HOutroNext f h))).
    split; [rewrite (click_offered _ _ _ _ _ Hadv), <- surjective_pairing;
            reflexivity|].
    at_rest HR f p. flush_to ltac:(rewrite Hou).
    split; [|split]; [|unfold reset_state; cbn; auto|log_eq].
    unfold phase, view. hsimpl. now rewrite Hcl.
Qed.

Lemma advance_from_outro_witness :
  let p := Demo.tour true [Demo.A] None (Some Demo.O) in
  let p' := Demo.tour false [Demo.A] None (Some Demo.O) in
  exists h f,
    session p [Click advance p] = Some (h, f) /\ phase f = Outro /\
    exists h' f',
      click advance p' (h, f) = Some (h', f') /\ phase f' = Closed /\
      log h' = log h ++ ["outro.onNext"; "onClose"]%string.
Proof.
  intros p p'.
  assert (Hx : match session p [Click advance p] with
               | Some (_, f) => props f = p /\ phase f = Outro
               | None => False
               end) by (vm_compute; repeat split; reflexivity).
  destruct (session p _) as [[h f]|] eqn:Hs; [|contradiction].
  destruct Hx as (Hf & Hp). exists h, f.
  split; [reflexivity|]. split; [exact Hp|].
  assert (Hou : outro (props f) = Some Demo.O) by now rewrite Hf.
  destruct (advance_from_outro p _ h f _ Hs Hp Hou) as (_ & _ & H).
  destruct (H p' eq_refl) as (h' & f' & H1 & H2 & _ & H3).
  rewrite Hf in H3. exists h', f'. repeat split; assumption.
Defined.

(** A mount with [open] lowered renders nothing, invokes no callback and
    leaves every state cell at its initial value. *)
Theorem mount_closed p :
  open p = false ->
  exists h f,
    mount p = Some (h, f) /\ phase f = Closed /\ reset_state h /\
    log h = [] /\ stepsRef h = steps p.
Proof.
  intros Hcl. unfold mount.
  exists (fst (flush p (init p))), (snd (flush p (init p))).
  split; [rewrite rerender_flush, <- surjective_pairing; reflexivity|].
  unfold flush, init. eval_pass.
  split; [|split; [unfold reset_state; cbn; auto|split; reflexivity]].
  unfold phase, view. hsimpl. now rewrite Hcl.
Qed.

Lemma mount_closed_witness :
  let p := Demo.tour false [Demo.A; Demo.B] (Some (Demo.I 1)) None in
  exists h f, mount p = Some (h, f) /\ phase f = Closed /\ log h = [].
Proof.
  intros p. destruct (mount_closed p eq_refl) as (h & f & H1 & H2 & _ & H3 & _).
  exists h, f. repeat split; assumption.
Defined.

Lemma mount_open_witness :
  let p := Demo.tour true [Demo.A; Demo.B] (Some (Demo.I 1)) None in
  exists h f,
    mount p = Some (h, f) /\ phase f = Intro /\
    log h = ["intro.onEnter"; "A.onEnter"]%string.
Proof.
  intros p. destruct (mount_open p eq_refl) as (h & f & H1 & H2 & H3).
  exists h, f. repeat split; assumption.
Defined.

(** Closing resets the latch so that a later opening starts afresh: when
    a closed tour is opened again with the steps of its last render, it
    settles as at a mount (intro screen, else first step, else nothing),
    with the index at 0 and the latch set, and the initial [onEnter] is
    invoked again. *)
Theorem reopen_starts_afresh p0 es h f p :
  session p0 es = Some (h, f) -> open (props f) = false ->
  open p = true -> steps p = steps (props f) ->
  exists h' f',
    rerender p h = Some (h', f') /\
    phase f' = match intro p with
               | Some _ => Intro
               | None => if len (steps p) =? 0 then Closed else Step 0
               end /\
    index h' = 0 /\ introShownRef h' = true /\
    log h' = log h ++ calls (first_enter p)
               ++ calls (step_onEnter (at_index (steps p) 0)).
Proof.
  intros Hs Hcl Ho Hst. pose proof (session_rest _ _ _ _ Hs) as HR.
  destruct (pre_closed _ (rest_pre _ _ HR) (intro_ref (props f)))
    as (Hi & Hsi & Hso & Hl).
  { now rewrite (rest_open _ _ HR), Hcl. }
  rewrite <- (rest_index _ _ HR) in Hi.
  rewrite <- (rest_showIntro _ _ HR) in Hsi.
  rewrite <- (rest_showOutro _ _ HR) in Hso.
  exists (fst (flush p h)), (snd (flush p h)).
  split; [rewrite rerender_flush, <- surjective_pairing; reflexivity|].
  at_rest HR f q. rewrite Hl. unfold flush. eval_pass. rewrite <- Hst.
  unfold first_enter.
  destruct (intro p) as [it|] eqn:Hit; step_eval.
  - eval_pass. split; [|split; [reflexivity|split; [reflexivity|log_eq]]].
    unfold phase, view. hsimpl. now rewrite Ho, Hit.
  - split; [|split; [reflexivity|split; [reflexivity|log_eq]]].
    unfold phase, view. hsimpl. rewrite Ho, ?Hit. hsimpl.
    rewrite at_index_0. destruct (steps p) as [|s ss]; [reflexivity|].
    rewrite len_cons. pose proof (len_nonneg ss). now decide_Z.
Qed.

Lemma reopen_starts_afresh_witness :
  let p := Demo.tour true [Demo.A] (Some (Demo.I 1)) None in
  let p' := Demo.tour false [Demo.A] (Some (Demo.I 1)) None in
  exists h f,
    session p [Click close p'] = Some (h, f) /\
    exists h' f',
      rerender p h = Some (h', f') /\ phase f' = Intro /\
      log h' = log h ++ ["intro.onEnter"; "A.onEnter"]%string.
Proof.
  intros p p'.
  assert (Hx : match session p [Click close p'] with
               | Some (_, f) => open (props f) = false /\
                                steps p = steps (props f)
               | None => False
               end) by (vm_compute; split; reflexivity).
  destruct (session p _) as [[h f]|] eqn:Hs; [|contradiction].
  destruct Hx as [Hcl Hst]. exists h, f. split; [reflexivity|].
  destruct (reopen_starts_afresh p _ h f p Hs Hcl eq_refl Hst)
    as (h' & f' & H1 & H2 & _ & _ & H3).
  exists h', f'. repeat split; assumption.
Defined.

Lemma rerender_latched_witness :
  let p := Demo.tour true [Demo.A] (Some (Demo.I 1)) None in
  let p' := Demo.tour true [Demo.A] (Some (Demo.I 2)) None in
  exists h f,
    session p [] = Some (h, f) /\
    exists h' f', rerender p' h = Some (h', f') /\ log h' = log h.
Proof.
  intros p p'.
  assert (Hx : match session p [] with
               | Some (h, f) => open (props f) = true /\
                                introShownRef h = true /\
                                steps p' = steps (props f)
               | None => False
               end) by (vm_compute; repeat split; reflexivity).
  destruct (session p _) as [[h f]|] eqn:Hs; [|contradiction].
  destruct Hx as (Ho & Hl & Hst). exists h, f. split; [reflexivity|].
  destruct (rerender_latched p _ h f p' Hs Ho Hl eq_refl Hst)
    as (h' & f' & H1 & H2 & _).
  exists h', f'. split; assumption.
Defined.

Lemma flush_total p h :
  stepsRef h = steps p -> f_total (snd (flush p h)) = len (steps p).
Proof.
  intros Hst. unfold flush. rewrite (pass_eq p h).
  destruct (pending _ _); [rewrite pass_eq|]; cbn; congruence.
Qed.

Lemma view_step f hp :
  view f = VStep hp ->
  open (props f) = true /\
  HighlightTour.progress hp = Some (f_index f + 1, f_total f) /\
  HighlightTour.onClose hp = HClose /\
  HighlightTour.onNext hp = Some HNext /\
  HighlightTour.onPrev hp = (if 0 <? f_index f then Some HPrev else None) /\
  exists c, current f = Some c /\
            HighlightTour.targetSelector hp = TourStep.selector c.
Proof.
  unfold view. destruct (open (props f)); cbn; [|discriminate].
  destruct (f_showIntro f), (intro (props f)), (f_showOutro f),
    (outro (props f)), (current f); try discriminate;
    intros [= <-]; cbn; eauto 10.
Qed.

(** The progress counter of a step.  After a render or a handled click
    that keeps the steps of the last render, a step that is shown carries
    the progress [index + 1] of [length steps], and the counter is within
    [1, length steps] whenever the list is not empty. *)
Theorem progress_counter p0 es h f p h' f' hp :
  session p0 es = Some (h, f) -> steps p = steps (props f) ->
  rerender p h = Some (h', f') \/
  (exists a hd, offered (view f) a = Some hd /\
                click a p (h, f) = Some (h', f')) ->
  view f' = VStep hp ->
  HighlightTour.progress hp = Some (index h' + 1, len (steps p)) /\
  (0 < len (steps p) -> 1 <= index h' + 1 <= len (steps p)).
Proof.
  intros Hs Hst Hev Hv. pose proof (session_rest _ _ _ _ Hs) as HR.
  destruct (view_step _ _ Hv) as (Ho & Hpr & _).
  assert (H : Rest h' f' /\ props f' = p /\ f_total f' = len (steps p)).
  { destruct Hev as [E|(a & hd & Hoff & E)].
    - destruct (rerender_rest _ _ _ _ (rest_pre _ _ HR) E) as [HR' Hp].
      split; [exact HR'|]. split; [exact Hp|].
      rewrite rerender_flush in E. injection E as E.
      replace f' with (snd (flush p h)) by now rewrite E.
      apply flush_total. now rewrite (rest_steps _ _ HR).
    - rewrite (click_offered _ _ _ _ _ Hoff) in E.
      assert (HP : Pre (run hd f h)).
      { apply run_pre; [exact HR|]. eapply offered_open; eauto. }
      destruct (rerender_rest p (run hd f h) h' f' HP) as [HR' Hp].
      { now rewrite rerender_flush. }
      split; [exact HR'|]. split; [exact Hp|].
      injection E as E.
      replace f' with (snd (flush p (run hd f h))) by now rewrite E.
      apply flush_total. destruct (run_keeps hd f h) as (Hk & _).
      now rewrite Hk, (rest_steps _ _ HR). }
  destruct H as (HR' & Hp & Ht).
  rewrite Hpr, Ht, (rest_index _ _ HR'). split; [reflexivity|].
  intros Hlen. destruct (rest_range _ _ HR' Ho) as [Hn Hr].
  rewrite (rest_index _ _ HR'), Hp in *. lia.
Qed.

Lemma progress_counter_witness :
  let p := Demo.tour true [Demo.A; Demo.B; Demo.C] None None in
  exists h f h' f' hp,
    session p [Click advance p] = Some (h, f) /\
    click advance p (h, f) = Some (h', f') /\ view f' = VStep hp /\
    HighlightTour.progress hp = Some (3, 3).
Proof.
  intros p.
  assert (Hx : match session p [Click advance p] with
               | Some (h, f) =>
                   steps p = steps (props f) /\
                   offered (view f) advance = Some HNext /\
                   match click advance p (h, f) with
                   | Some (h', f') =>
                       index h' = 2 /\
                       match view f' with VStep _ => True | _ => False end
                   | None => False
                   end
               | None => False
               end) by (vm_compute; repeat split; reflexivity).
  destruct (session p _) as [[h f]|] eqn:Hs; [|contradiction].
  destruct Hx as (Hst & Hoff & Hx).
  destruct (click advance p (h, f)) as [[h' f']|] eqn:Hc; [|contradiction].
  destruct Hx as (Hi & Hv). destruct (view f') as [| | |hp] eqn:Ev;
    try contradiction.
  exists h, f, h', f', hp.
  split; [reflexivity|]. split; [exact Hc|]. split; [exact Ev|].
  destruct (progress_counter p _ h f p h' f' hp Hs Hst) as (H & _);
    [right; eauto|exact Ev|].
  rewrite H, Hi. reflexivity.
Defined.

(** * The overlay of HighlightTour *)

Module OverlayFacts.
Import Overlay.

Lemma ov_same_el_eq a b : same_el a b = true -> a = b.
Proof.
  destruct a, b; cbn; try congruence.
  intros H. apply Nat.eqb_eq in H. now subst.
Qed.

Lemma ov_same_el_refl a : same_el a a = true.
Proof. destruct a; cbn; auto using Nat.eqb_refl. Qed.

Lemma ov_same_find_eq a b : same_find a b = true -> a = b.
Proof.
  destruct a as [o s], b as [o' s']; unfold same_find; cbn.
  rewrite andb_true_iff. intros [Ho Hs].
  apply eqb_prop in Ho. apply String.eqb_eq in Hs. now subst.
Qed.

Lemma ov_same_find_refl a : same_find a a = true.
Proof. unfold same_find. now rewrite eqb_same, String.eqb_refl. Qed.

Lemma ov_same_track_eq a b : same_track a b = true -> a = b.
Proof.
  destruct a as [o s], b as [o' s']; unfold same_track; cbn.
  rewrite andb_true_iff. intros [Ho Hs].
  apply eqb_prop in Ho. apply ov_same_el_eq in Hs. now subst.
Qed.

Lemma ov_same_track_refl a : same_track a a = true.
Proof. unfold same_track. now rewrite eqb_same, ov_same_el_refl. Qed.

(** The layout effect of a commit, in closed form: it never throws. *)
Lemma ov_useEffect_track pg f c now :
  useEffect same_track deps_track set_deps_track now
            cleanup_track (effect_track pg f) c =
  let ran := changed same_track (deps_track c) now in
  let hit := if ran && open (input f) then f_targetEl f else None in
  Ok (mkCells (match hit with
               | Some el => Some (getBoundingClientRect pg el)
               | None => rect c
               end)
              (targetEl c) (observer c)
              (if ran then hit else tracked c)
              (deps_find c) (Some now)
              (dirty c || match hit with Some _ => true | None => false end)
              (dom c ++ match hit with
                        | Some el => [ScrollIntoView el; Focus el]
                        | None => []
                        end)).
Proof.
  destruct c as [r t ob tr d1 d2 di dm].
  unfold useEffect, effect_track, cleanup_track. cbn.
  destruct (changed same_track d2 now) eqn:E;
    [|apply changed_false in E; [subst; cbn;
                                 now rewrite app_nil_r, orb_false_r
                                |exact ov_same_track_eq]].
  cbn. destruct (open (input f)); cbn;
    [|now rewrite app_nil_r, orb_false_r].
  destruct (f_targetEl f); cbn;
    [|now rewrite app_nil_r, orb_false_r].
  unfold update, setRect, dom_call, set_tracked. cbn.
  rewrite <- app_assoc, orb_true_r. reflexivity.
Qed.

(** The passive effect of a commit, in closed form: it throws exactly
    when it runs, with [open] raised, on a selector that is not valid. *)
Lemma ov_useEffect_find pg f c now :
  useEffect same_find deps_find set_deps_find now
            cleanup_find (effect_find pg f) c =
  let ran := changed same_find (deps_find c) now in
  let o := open (input f) in
  let l := querySelector pg (targetSelector (input f)) in
  let q := matched l in
  if ran && o && match l with Invalid => true | _ => false end
  then Threw (SyntaxError (targetSelector (input f)))
  else
  Ok (mkCells (if ran && negb o then None else rect c)
          (if ran then
             if o then match q with Some el => Some el | None => targetEl c end
             else None
           else targetEl c)
          (if ran then
             if o then
               match q with
               | Some _ => None
               | None => if hasMutationObserver pg
                         then Some (targetSelector (input f)) else None
               end
             else None
           else observer c)
          (tracked c) (Some now) (deps_track c)
          (dirty c ||
           (ran &&
            if o then match q with
                      | Some el => negb (same_el (Some el) (targetEl c))
                      | None => false
                      end
            else negb (same_el None (targetEl c))
                 || match rect c with Some _ => true | None => false end))
          (dom c)).
Proof.
  destruct c as [r t ob tr d1 d2 di dm].
  unfold useEffect, effect_find, cleanup_find, findTarget. cbn.
  destruct (changed same_find d1 now) eqn:E;
    [|apply changed_false in E; [subst; cbn; now rewrite orb_false_r
                                |exact ov_same_find_eq]].
  cbn. destruct (open (input f)); cbn.
  - destruct (querySelector pg _); cbn; [reflexivity| |reflexivity].
    destruct (hasMutationObserver pg); cbn; now rewrite orb_false_r.
  - unfold setRect, setTargetEl. cbn.
    destruct t, r; cbn; rewrite ?orb_false_r, ?orb_true_r; reflexivity.
Qed.

(** One pass: the exception of the lookup, or the normal form. *)
Lemma ov_pass_eq pg p c :
  pass pg p c =
  if throws pg p c then Threw (SyntaxError (targetSelector p))
  else Ok (pass_nf pg p c).
Proof.
  unfold pass, render, commit.
  rewrite ov_useEffect_track. cbn zeta. cbn [bind].
  rewrite ov_useEffect_find.
  unfold throws, pass_nf, hit, ran_track, ran_find, set_dirty. cbn.
  match goal with |- bind (if ?b then _ else _) _ = _ => destruct b end;
    reflexivity.
Qed.

(** Once the passive effect has run for the props, the lookup is not
    repeated. *)
Lemma ov_throws_deps pg p c :
  deps_find c = Some (open p, targetSelector p) -> throws pg p c = false.
Proof.
  intros H. unfold throws, ran_find.
  now rewrite H, (changed_same same_find) by apply ov_same_find_refl.
Qed.

Lemma ov_throws_cases pg p c :
  throws pg p c = true <->
  ran_find p c = true /\ open p = true /\
  querySelector pg (targetSelector p) = Invalid.
Proof.
  unfold throws. rewrite !andb_true_iff.
  destruct (querySelector pg (targetSelector p)); intuition congruence.
Qed.

Ltac ran_cases p c :=
  unfold hit;
  destruct (ran_track p c) eqn:Et;
    [|apply changed_false in Et; [|exact ov_same_track_eq]];
  (destruct (ran_find p c) eqn:Ef;
    [|apply changed_false in Ef; [|exact ov_same_find_eq]]).

Ltac inj_all :=
  repeat match goal with
         | H : Some _ = Some _ |- _ => injection H as H
         | H : (_, _) = (_, _) |- _ => injection H as H
         | H : ?x = ?x |- _ => clear H
         end; subst.

Ltac use_pre :=
  repeat match goal with
         | H : forall s, Some (false, _) = Some (false, s) -> _ |- _ =>
             specialize (H _ eq_refl)
         | H : forall el, Some (true, Some _) = Some (true, Some el) -> _ |- _ =>
             specialize (H _ eq_refl)
         | H : forall s, Some _ = Some s -> _ |- _ =>
             specialize (H _ eq_refl)
         | H : forall o t o' s, Some _ = Some (o, t) -> Some _ = Some (o', s) -> _
           |- _ => specialize (H _ _ _ _ eq_refl eq_refl)
         | H : _ /\ _ |- _ => destruct H
         end.

Lemma ov_pass_pre pg p c : Pre c -> Pre (fst (pass_nf pg p c)).
Proof.
  intros [H1 H2 H3 H4 H5 H6]. unfold pass_nf. cbn zeta. cbn [fst].
  ran_cases p c; destruct c as [r t ob tr d1 d2 di dm]; cbn in *; subst;
    destruct (open p) eqn:Ho; cbn [andb negb] in *;
    destruct t as [t|];
    destruct (matched (querySelector pg (targetSelector p))) as [e|] eqn:Hq;
    destruct (hasMutationObserver pg);
    constructor; cbn; intros; inj_all; use_pre; inj_all;
    try discriminate; try congruence; try tauto;
    try (repeat split; congruence).
Qed.

Lemma ov_pass_deps pg p c :
  deps_find (fst (pass_nf pg p c)) = Some (open p, targetSelector p) /\
  deps_track (fst (pass_nf pg p c)) = Some (open p, targetEl c).
Proof. unfold pass_nf. cbn. auto. Qed.

(** A pass that asks for no render has changed neither state cell. *)
Lemma ov_pass_clean pg p c :
  dirty (fst (pass_nf pg p c)) = false ->
  rect (fst (pass_nf pg p c)) = rect c /\
  targetEl (fst (pass_nf pg p c)) = targetEl c.
Proof.
  unfold pass_nf. cbn zeta. cbn [fst dirty rect targetEl].
  unfold hit. destruct (ran_track p c && open p), (ran_find p c),
    (open p), (targetEl c) as [t|], (rect c) as [r|],
    (matched (querySelector pg (targetSelector p))) as [e|]; cbn;
    try discriminate; auto;
    rewrite ?orb_false_r; intros H; try discriminate;
    apply negb_false_iff, Nat.eqb_eq in H; subst; auto.
Qed.

Lemma ov_pass_keeps_target pg p c :
  deps_find c = Some (open p, targetSelector p) ->
  targetEl (fst (pass_nf pg p c)) = targetEl c.
Proof.
  intros H. unfold pass_nf. cbn. unfold ran_find.
  now rewrite H, (changed_same same_find) by apply ov_same_find_refl.
Qed.

(** A pass that finds both dependency arrays unchanged runs no effect. *)
Lemma ov_pass_quiet pg p c :
  deps_find c = Some (open p, targetSelector p) ->
  deps_track c = Some (open p, targetEl c) ->
  dirty (fst (pass_nf pg p c)) = false /\
  rect (fst (pass_nf pg p c)) = rect c /\
  dom (fst (pass_nf pg p c)) = dom c /\
  observer (fst (pass_nf pg p c)) = observer c /\
  tracked (fst (pass_nf pg p c)) = tracked c.
Proof.
  intros H1 H2. unfold pass_nf. cbn. unfold hit, ran_track, ran_find.
  rewrite H1, H2, (changed_same same_find), (changed_same same_track)
    by (apply ov_same_find_refl || apply ov_same_track_refl).
  cbn. now rewrite app_nil_r.
Qed.

Lemma ov_third_pass_clean pg p c :
  let c1 := fst (pass_nf pg p c) in
  let c2 := fst (pass_nf pg p c1) in
  dirty (fst (pass_nf pg p c2)) = false.
Proof.
  cbn zeta.
  destruct (ov_pass_deps pg p c) as [Hf1 _].
  destruct (ov_pass_deps pg p (fst (pass_nf pg p c))) as [Hf2 Ht2].
  rewrite <- (ov_pass_keeps_target pg p _ Hf1) in Ht2.
  apply (ov_pass_quiet pg p _ Hf2 Ht2).
Qed.

(** Three passes are enough: the first may throw, the later ones run no
    lookup. *)
Lemma ov_settle_flush pg p c k :
  settle (S (S (S k))) pg p c =
  if throws pg p c then Threw (SyntaxError (targetSelector p))
  else Ok (flush pg p c).
Proof.
  unfold flush. cbn [settle]. rewrite ov_pass_eq.
  destruct (throws pg p c); [reflexivity|].
  pose proof (ov_third_pass_clean pg p c) as H3. cbn zeta in H3.
  destruct (ov_pass_deps pg p c) as [D1 _].
  destruct (pass_nf pg p c) as [c1 f1]. cbn [fst] in *.
  destruct (dirty c1); [|reflexivity].
  rewrite ov_pass_eq, (ov_throws_deps pg p c1 D1).
  destruct (ov_pass_deps pg p c1) as [D2 _].
  destruct (pass_nf pg p c1) as [c2 f2]. cbn [fst] in *.
  destruct (dirty c2); [|reflexivity].
  rewrite ov_pass_eq, (ov_throws_deps pg p c2 D2).
  destruct (pass_nf pg p c2) as [c3 f3]. cbn [fst] in H3. now rewrite H3.
Qed.

Lemma ov_rerender_flush pg p c :
  rerender pg p c =
  if throws pg p c then Threw (SyntaxError (targetSelector p))
  else Ok (flush pg p c).
Proof. apply ov_settle_flush. Qed.

Lemma ov_rerender_ok pg p c :
  throws pg p c = false -> rerender pg p c = Ok (flush pg p c).
Proof. intros H. now rewrite ov_rerender_flush, H. Qed.

Lemma ov_clean_rest pg p c :
  Pre c -> dirty (fst (pass_nf pg p c)) = false ->
  Rest (fst (pass_nf pg p c)) (snd (pass_nf pg p c)) /\
  input (snd (pass_nf pg p c)) = p.
Proof.
  intros HP Hd. destruct (ov_pass_clean pg p c Hd) as [Hr Ht].
  destruct (ov_pass_deps pg p c) as [Hf Hk].
  pose proof (ov_pass_pre pg p c HP) as [H1 H2 H3 H4 H5 H6].
  revert Hd Hr Ht Hf Hk H1 H2 H3 H4 H5 H6.
  assert (E : snd (pass_nf pg p c) = mkFrame p (rect c) (targetEl c))
    by reflexivity.
  rewrite E. clear E. generalize (fst (pass_nf pg p c)) as c'.
  intros c' Hd Hr Ht Hf Hk H1 H2 H3 H4 H5 H6.
  split; [|reflexivity].
  rewrite <- Ht in Hk.
  constructor; cbn; try congruence; try exact H4.
  - rewrite H1, Hk. now destruct (open p).
  - intros Ho. apply (H2 (targetSelector p)). now rewrite Hf, Ho.
  - intros el He. destruct (open p) eqn:Ho.
    + apply (H3 el). now rewrite Hk, He.
    + destruct (H2 (targetSelector p)) as (_ & Hn & _); congruence.
  - intros s Hs. specialize (H5 s Hs). rewrite Hf in H5.
    injection H5 as Ho <-. auto.
Qed.

Lemma ov_flush_rest pg p c :
  Pre c ->
  Rest (fst (flush pg p c)) (snd (flush pg p c)) /\
  input (snd (flush pg p c)) = p.
Proof.
  intros HP. unfold flush.
  pose proof (ov_clean_rest pg p c HP) as R1.
  pose proof (ov_pass_pre pg p c HP) as HP1.
  pose proof (ov_third_pass_clean pg p c) as H3. cbn zeta in H3.
  destruct (pass_nf pg p c) as [c1 f1]. cbn [fst snd] in *.
  destruct (dirty c1); [|now apply R1].
  pose proof (ov_clean_rest pg p c1 HP1) as R2.
  pose proof (ov_pass_pre pg p c1 HP1) as HP2.
  destruct (pass_nf pg p c1) as [c2 f2]. cbn [fst snd] in *.
  destruct (dirty c2); [|now apply R2].
  now apply ov_clean_rest.
Qed.

Lemma ov_rest_pre c f : Rest c f -> Pre c.
Proof.
  intros [H1 H2 H3 H4 H5 H6 H7 H8 H9 H10].
  constructor.
  - rewrite H5, H6. now destruct (open (input f)).
  - intros s E. rewrite H4 in E. injection E as Ho _. auto.
  - intros el E. rewrite H5 in E. injection E as Ho Ht.
    split; [apply (H8 el); exact Ht|rewrite Ht; discriminate].
  - exact H9.
  - intros s E. destruct (H10 s E) as [Ho ->]. now rewrite H4, Ho.
  - intros o t o' s E1 E2. rewrite H5 in E1. rewrite H4 in E2. congruence.
Qed.

Lemma ov_on_mutation_pre pg c : Pre c -> Pre (on_mutation pg c).
Proof.
  intros HP. pose proof HP as [H1 H2 H3 H4 H5 H6].
  unfold on_mutation, findTarget.
  destruct (observer c) as [s|] eqn:Eo; [|exact HP].
  destruct (querySelector pg s) as [el| |]; [|exact HP|exact HP].
  specialize (H5 s eq_refl).
  constructor; cbn; auto; try discriminate.
  - intros s' E. rewrite H5 in E. discriminate.
  - intros el' E. destruct (H3 el' E). split; [assumption|discriminate].
Qed.

Lemma ov_on_mutation_deps pg c : deps_find (on_mutation pg c) = deps_find c.
Proof.
  unfold on_mutation, findTarget.
  destruct (observer c); [|reflexivity].
  destruct (querySelector pg _); reflexivity.
Qed.

Lemma ov_on_geometry_pre pg c : Pre c -> Pre (on_geometry pg c).
Proof.
  intros HP. pose proof HP as [H1 H2 H3 H4 H5 H6].
  unfold on_geometry, update.
  destruct (tracked c) as [el|] eqn:Et; [|exact HP].
  assert (Hd : deps_track c = Some (true, Some el)).
  { rewrite H1 in Et. destruct (deps_track c) as [[[] t]|]; congruence. }
  destruct (H3 el Hd) as [Hr Ht].
  constructor; cbn; auto.
  - now rewrite Et.
  - intros s E. specialize (H6 _ _ _ _ Hd E). discriminate.
  - intros el' E. destruct (H3 el' E). split; [discriminate|assumption].
Qed.

Lemma ov_on_geometry_deps pg c : deps_find (on_geometry pg c) = deps_find c.
Proof. unfold on_geometry. now destruct (tracked c). Qed.

Lemma ov_rerender_rest pg p c c' f' :
  Pre c -> rerender pg p c = Ok (c', f') -> Rest c' f' /\ input f' = p.
Proof.
  intros HP. rewrite ov_rerender_flush.
  destruct (throws pg p c); [discriminate|]. intros [= E].
  pose proof (ov_flush_rest pg p c HP) as H. now rewrite E in H.
Qed.

Lemma ov_react_rest e c f c' f' :
  Rest c f -> react e (c, f) = Ok (c', f') -> Rest c' f'.
Proof.
  intros HR. pose proof (ov_rest_pre _ _ HR) as HP.
  destruct e as [p pg|pg|pg]; cbn [react].
  - intros E. eapply ov_rerender_rest; eauto.
  - destruct (dirty (on_mutation pg c)) eqn:Ed.
    + intros E. eapply ov_rerender_rest; [|exact E].
      now apply ov_on_mutation_pre.
    + intros [= <- <-]. revert Ed. unfold on_mutation, findTarget.
      destruct (observer c) as [s|] eqn:Eo; [|auto].
      destruct (querySelector pg s) as [el| |]; [|auto|auto].
      destruct HR as [H1 H2 H3 H4 H5 H6 H7 H8 H9 H10].
      cbn. rewrite H3. cbn. intros Hs.
      apply negb_false_iff in Hs. destruct (targetEl c) as [t|] eqn:Et;
        [|discriminate].
      apply Nat.eqb_eq in Hs. subst t.
      constructor; cbn; rewrite ?Et; auto; try congruence; try discriminate.
      * now rewrite H3, Nat.eqb_refl.
      * intros Ho. destruct (H7 Ho) as (_ & Hn & _). congruence.
  - destruct (dirty (on_geometry pg c)) eqn:Ed.
    + intros E. eapply ov_rerender_rest; [|exact E].
      now apply ov_on_geometry_pre.
    + intros [= <- <-]. revert Ed. unfold on_geometry, update.
      destruct (tracked c) as [el|]; [|auto].
      cbn. rewrite orb_true_r. discriminate.
Qed.

Lemma ov_init_pre : Pre init.
Proof. constructor; cbn; try discriminate; auto. Qed.

Lemma ov_mount_rest pg p c f : mount pg p = Ok (c, f) -> Rest c f.
Proof. intros E. eapply ov_rerender_rest; [exact ov_init_pre|exact E]. Qed.

Lemma ov_replay_rest es : forall c f c' f',
  Rest c f -> replay es (c, f) = Ok (c', f') -> Rest c' f'.
Proof.
  induction es as [|e es IH]; cbn [replay]; intros c f c' f' HR.
  - now intros [= <- <-].
  - destruct (react e (c, f)) as [[c1 f1]|] eqn:E; cbn [bind];
      [|discriminate].
    apply IH. eapply ov_react_rest; eauto.
Qed.

(** Every session that throws nothing leaves the overlay at rest. *)
Lemma ov_session_rest pg p es c f : session pg p es = Ok (c, f) -> Rest c f.
Proof.
  unfold session.
  destruct (mount pg p) as [[c0 f0]|] eqn:E; cbn [bind]; [|discriminate].
  apply ov_replay_rest. eapply ov_mount_rest; eauto.
Qed.

(** A render with the props of the last render looks nothing up. *)
Lemma ov_rest_throws pg c f c' :
  Rest c f -> deps_find c' = deps_find c -> throws pg (input f) c' = false.
Proof.
  intros HR E. apply ov_throws_deps. rewrite E. apply (rest_find _ _ HR).
Qed.

Lemma ov_pass_nf_eq pg p c :
  pass_nf pg p c
  = ltac:(let t := eval unfold pass_nf in (pass_nf pg p c) in exact t).
Proof. reflexivity. Qed.

Ltac ov_simpl :=
  cbn [rect targetEl observer tracked deps_find deps_track dirty dom input
       f_rect f_targetEl open targetSelector fst snd changed same_find
       same_track same_el matched Bool.eqb andb orb negb app].

Ltac ov_pass tac :=
  rewrite ov_pass_nf_eq; cbn zeta; unfold hit, ran_track, ran_find;
  repeat (progress (ov_simpl; tac;
                    rewrite ?String.eqb_refl, ?Nat.eqb_refl, ?eqb_same,
                      ?andb_false_r, ?andb_true_r, ?orb_false_r, ?orb_true_r,
                      ?app_nil_r)).

(** Evaluate the flush of the goal once, to a pair of records. *)
Ltac ov_flush tac :=
  match goal with
  | |- context [flush ?pg ?p ?x] =>
      let E := fresh "E" in
      eassert (E : flush pg p x = _);
      [ unfold flush; ov_pass tac; try (ov_pass tac; try ov_pass tac);
        reflexivity
      | rewrite E; clear E; cbn [fst snd] ]
  end.

(** Discharge [throws _ _ _ = false] from what is known of the lookup. *)
Ltac ov_no_throw tac :=
  unfold throws, ran_find; ov_simpl; tac;
  rewrite ?String.eqb_refl, ?eqb_same, ?andb_false_r; ov_simpl;
  try reflexivity.

Lemma ov_rest_cells c f :
  Rest c f ->
  c = mkCells (rect c) (targetEl c) (observer c)
              (if open (input f) then targetEl c else None)
              (Some (open (input f), targetSelector (input f)))
              (Some (open (input f), targetEl c)) false (dom c) /\
  f = mkFrame (input f) (rect c) (targetEl c).
Proof.
  intros [H1 H2 H3 H4 H5 H6 _ _ _ _]. destruct c, f; cbn in *.
  split; congruence.
Qed.

Lemma ov_flush_clean pg p c :
  dirty (fst (flush pg p c)) = false /\ input (snd (flush pg p c)) = p.
Proof.
  unfold flush.
  pose proof (ov_third_pass_clean pg p c) as H3. cbn zeta in H3.
  assert (Hin : forall x, input (snd (pass_nf pg p x)) = p)
    by reflexivity.
  pose proof (Hin c) as I1. destruct (pass_nf pg p c) as [c1 f1].
  cbn [fst snd] in *. destruct (dirty c1) eqn:D1; [|auto].
  pose proof (Hin c1) as I2. destruct (pass_nf pg p c1) as [c2 f2].
  cbn [fst snd] in *. destruct (dirty c2) eqn:D2; [|auto].
  split; [exact H3|apply Hin].
Qed.

(** The render loop of the overlay settles in at most three passes.  From
    any state of its cells, on any page and for any props, [rerender] is
    what three passes give, so React's update depth is never reached; and
    unless the lookup of the selector throws, it returns with no render
    left to do. *)
Theorem overlay_rerender_returns pg p c :
  rerender pg p c = settle 3 pg p c /\
  rerender pg p c <> Threw UpdateDepthExceeded /\
  ((open p = true -> querySelector pg (targetSelector p) <> Invalid) ->
   exists c' f',
     rerender pg p c = Ok (c', f') /\ dirty c' = false /\ input f' = p).
Proof.
  split; [|split].
  - now rewrite ov_rerender_flush, ov_settle_flush.
  - rewrite ov_rerender_flush. destruct (throws pg p c); discriminate.
  - intros Hq.
    assert (Ht : throws pg p c = false).
    { destruct (throws pg p c) eqn:E; [|reflexivity].
      apply ov_throws_cases in E. destruct E as (_ & Ho & Hi).
      now destruct (Hq Ho). }
    exists (fst (flush pg p c)), (snd (flush pg p c)).
    split; [rewrite (ov_rerender_ok _ _ _ Ht), <- surjective_pairing;
            reflexivity|].
    apply ov_flush_clean.
Qed.

Lemma overlay_rerender_returns_witness :
  let pg := demo_page false 0 in
  let p := mkInput true "#a" in
  exists c' f',
    rerender pg p init = Ok (c', f') /\ settle 3 pg p init = Ok (c', f') /\
    dirty c' = false.
Proof.
  intros pg p.
  destruct (overlay_rerender_returns pg p init) as (H1 & _ & H).
  destruct H as (c' & f' & H2 & H3 & _).
  { intros _. vm_compute. discriminate. }
  exists c', f'. rewrite <- H1. repeat split; assumption.
Defined.

(** A target that is on the page at the mount is resolved at once: it is
    scrolled into view, measured and focused once, the listeners are bound
    to it, no MutationObserver is connected, and the highlight and the
    tooltip are rendered from its rectangle. *)
Theorem overlay_mount_found pg p el :
  open p = true -> querySelector pg (targetSelector p) = Found el ->
  exists c f,
    mount pg p = Ok (c, f) /\
    targetEl c = Some el /\
    rect c = Some (getBoundingClientRect pg el) /\
    observer c = None /\ tracked c = Some el /\
    dom c = [ScrollIntoView el; Focus el] /\
    forall w h,
      shown f w h
      = Some (HighlightTour.highlightStyle (getBoundingClientRect pg el),
              (HighlightTour.tooltipLeft (getBoundingClientRect pg el) w,
               HighlightTour.tooltipTop (getBoundingClientRect pg el) h)).
Proof.
  intros Ho Hq. unfold mount.
  exists (fst (flush pg p init)), (snd (flush pg p init)).
  split; [rewrite ov_rerender_ok, <- surjective_pairing;
          [reflexivity|ov_no_throw ltac:(rewrite ?Ho, ?Hq)]|].
  unfold init. ov_flush ltac:(rewrite ?Ho, ?Hq).
  unfold shown. ov_simpl. rewrite Ho. cbn. repeat split; reflexivity.
Qed.

Lemma overlay_mount_found_witness :
  let pg := demo_page false 0 in
  let p := mkInput true "#a" in
  exists c f,
    mount pg p = Ok (c, f) /\ targetEl c = Some 1%nat /\
    dom c = [ScrollIntoView 1%nat; Focus 1%nat].
Proof.
  intros pg p.
  destruct (overlay_mount_found pg p 1%nat eq_refl eq_refl)
    as (c & f & H1 & H2 & _ & _ & _ & H3 & _).
  exists c, f. repeat split; assumption.
Defined.

(** The mount of an open overlay whose lookup returns no element. *)
Lemma ov_mount_not_found pg p :
  open p = true -> querySelector pg (targetSelector p) = NotFound ->
  exists c f,
    mount pg p = Ok (c, f) /\
    rect c = None /\ targetEl c = None /\ tracked c = None /\ dom c = [] /\
    observer c = (if hasMutationObserver pg
                  then Some (targetSelector p) else None) /\
    forall w h, shown f w h = None.
Proof.
  intros Ho Hq. unfold mount.
  exists (fst (flush pg p init)), (snd (flush pg p init)).
  split; [rewrite ov_rerender_ok, <- surjective_pairing;
          [reflexivity|ov_no_throw ltac:(rewrite ?Ho, ?Hq)]|].
  unfold init. ov_flush ltac:(rewrite ?Ho, ?Hq).
  unfold shown. ov_simpl. rewrite Ho. cbn.
  destruct (hasMutationObserver pg); repeat split; reflexivity.
Qed.

(** A target that is not on the page at the mount stays pending: when the
    lookup returns no element, nothing is rendered, nothing is scrolled or
    focused, and a MutationObserver is connected for the selector when the
    page has one; without one the lookup is not repeated.  A closed
    overlay looks nothing up. *)
Theorem overlay_mount_pending pg p :
  (open p = true -> querySelector pg (targetSelector p) = NotFound) ->
  exists c f,
    mount pg p = Ok (c, f) /\
    rect c = None /\ targetEl c = None /\ tracked c = None /\ dom c = [] /\
    observer c = (if open p && hasMutationObserver pg
                  then Some (targetSelector p) else None) /\
    forall w h, shown f w h = None.
Proof.
  intros Hq. destruct (open p) eqn:Ho.
  - destruct (ov_mount_not_found pg p Ho (Hq eq_refl))
      as (c & f & H1 & H2 & H3 & H4 & H5 & H6 & H7).
    exists c, f. cbn [andb]. repeat split; assumption.
  - clear Hq. unfold mount.
    exists (fst (flush pg p init)), (snd (flush pg p init)).
    split; [rewrite ov_rerender_ok, <- surjective_pairing;
            [reflexivity|ov_no_throw ltac:(rewrite ?Ho)]|].
    unfold init. ov_flush ltac:(rewrite ?Ho).
    unfold shown. ov_simpl. rewrite Ho. cbn. repeat split; reflexivity.
Qed.

Lemma overlay_mount_pending_witness :
  let pg := demo_page false 0 in
  let p := mkInput true "#b" in
  exists c f,
    mount pg p = Ok (c, f) /\ rect c = None /\
    observer c = Some "#b"%string.
Proof.
  intros pg p.
  destruct (overlay_mount_pending pg p) as (c & f & H1 & H2 & _ & _ & _ & H3 & _).
  { intros _. reflexivity. }
  exists c, f. repeat split; assumption.
Defined.

(** A selector that [querySelector] rejects is not caught: the mount of
    an open overlay throws the [SyntaxError] out of the effect of lines
    68-98, no state of the overlay is reached, and so no session
    follows. *)
Theorem overlay_invalid_selector_throws pg p es :
  open p = true -> querySelector pg (targetSelector p) = Invalid ->
  mount pg p = Threw (SyntaxError (targetSelector p)) /\
  session pg p es = Threw (SyntaxError (targetSelector p)).
Proof.
  intros Ho Hq.
  assert (E : mount pg p = Threw (SyntaxError (targetSelector p))).
  { unfold mount. rewrite ov_rerender_flush.
    replace (throws pg p init) with true; [reflexivity|].
    symmetry. apply ov_throws_cases. auto. }
  split; [exact E|]. unfold session. now rewrite E.
Qed.

Lemma overlay_invalid_selector_throws_witness :
  session (demo_page false 0) (mkInput true "#1")
          [Mutation (demo_page true 0)]
  = Threw (SyntaxError "#1").
Proof.
  exact (proj2 (overlay_invalid_selector_throws
                  (demo_page false 0) (mkInput true "#1")
                  [Mutation (demo_page true 0)] eq_refl eq_refl)).
Defined.

(** After every session of the overlay: a closed overlay holds no target,
    no rectangle, no observer and no listener and renders nothing; an open
    one has its listeners bound to its target; a rectangle is held exactly
    when a target is; a connected observer looks up the selector of the
    props; and what is rendered is the rectangle last measured. *)
Theorem overlay_invariants pg p es c f :
  session pg p es = Ok (c, f) ->
  (open (input f) = false ->
   rect c = None /\ targetEl c = None /\ observer c = None /\
   tracked c = None /\ forall w h, shown f w h = None) /\
  (open (input f) = true -> tracked c = targetEl c) /\
  (rect c = None <-> targetEl c = None) /\
  (forall s, observer c = Some s ->
             open (input f) = true /\ s = targetSelector (input f)) /\
  f_rect f = rect c.
Proof.
  intros Hs. pose proof (ov_session_rest _ _ _ _ _ Hs)
    as [H1 H2 H3 H4 H5 H6 H7 H8 H9 H10].
  split; [|split; [|split; [|split]]]; auto.
  - intros Ho. destruct (H7 Ho) as (Hr & Ht & Hb).
    repeat split; auto; [now rewrite H6, Ho|].
    intros w h. unfold shown. now rewrite Ho.
  - intros Ho. now rewrite H6, Ho.
  - split.
    + intros Hr. destruct (targetEl c) as [el|] eqn:Et; [|reflexivity].
      now destruct (H8 el eq_refl).
    + intros Ht. destruct (rect c) eqn:Er; [|reflexivity].
      exfalso. apply H9; [discriminate|exact Ht].
Qed.

Lemma overlay_invariants_witness :
  let pg := demo_page false 0 in
  let p := mkInput true "#a" in
  exists c f,
    session pg p [Geometry (demo_page false 10);
                  Render (mkInput false "#a") pg] = Ok (c, f) /\
    rect c = None /\ tracked c = None.
Proof.
  intros pg p.
  assert (Hx : match session pg p [Geometry (demo_page false 10);
                                   Render (mkInput false "#a") pg] with
               | Ok (_, f) => open (input f) = false
               | Threw _ => False
               end) by (vm_compute; reflexivity).
  destruct (session pg p _) as [[c f]|] eqn:Hs; [|contradiction].
  exists c, f. split; [reflexivity|].
  destruct (overlay_invariants pg p _ c f Hs) as (H & _).
  destruct (H Hx) as (H1 & _ & _ & H2 & _). split; assumption.
Defined.

Ltac ov_proj :=
  cbn [rect targetEl observer tracked deps_find deps_track dirty dom].

(** The MutationObserver.  With no observer connected a batch of
    mutations changes nothing.  With one connected, a batch after which
    the lookup returns no element (or throws) changes nothing and the
    observer stays; a batch that brings a match disconnects the observer
    and, when the match is not the element already held, resolves the
    target: the element is scrolled into view, measured on the page as it
    is then, focused, and bound to the listeners.  A match that is the
    element already held changes nothing else. *)
Theorem overlay_mutation pg0 p es c f pg :
  session pg0 p es = Ok (c, f) ->
  (observer c = None -> react (Mutation pg) (c, f) = Ok (c, f)) /\
  (forall s, observer c = Some s ->
             (forall el, querySelector pg s <> Found el) ->
             react (Mutation pg) (c, f) = Ok (c, f)) /\
  (forall s el,
     observer c = Some s -> querySelector pg s = Found el ->
     targetEl c <> Some el ->
     exists c' f',
       react (Mutation pg) (c, f) = Ok (c', f') /\
       targetEl c' = Some el /\
       rect c' = Some (getBoundingClientRect pg el) /\ f_rect f' = rect c' /\
       observer c' = None /\ tracked c' = Some el /\
       dom c' = dom c ++ [ScrollIntoView el; Focus el]) /\
  (forall s el,
     observer c = Some s -> querySelector pg s = Found el ->
     targetEl c = Some el ->
     react (Mutation pg) (c, f) = Ok (set_observer None c, f)).
Proof.
  intros Hs. pose proof (ov_session_rest _ _ _ _ _ Hs) as HR.
  pose proof (rest_clean _ _ HR) as Hd.
  split; [|split; [|split]].
  - intros Hob. cbn [react]. unfold on_mutation. now rewrite Hob, Hd.
  - intros s Hob Hq. cbn [react].
    unfold on_mutation, findTarget. rewrite Hob.
    destruct (querySelector pg s) as [el| |]; [now destruct (Hq el)| |];
      now rewrite Hd.
  - intros s el Hob Hq Hne.
    destruct (rest_observer _ _ HR s Hob) as [Ho Hsel].
    assert (Hsame : same_el (Some el) (targetEl c) = false).
    { destruct (targetEl c) as [t|]; [|reflexivity]. cbn.
      apply Nat.eqb_neq. congruence. }
    assert (Hsame' : same_el (targetEl c) (Some el) = false).
    { destruct (targetEl c) as [t|]; [|reflexivity]. cbn.
      apply Nat.eqb_neq. congruence. }
    cbn [react]. unfold on_mutation, findTarget. rewrite Hob, Hq.
    unfold set_observer, setTargetEl. ov_proj. rewrite Hd, Hsame.
    ov_simpl.
    rewrite ov_rerender_ok
      by (apply (ov_rest_throws pg c f _ HR); reflexivity).
    match goal with |- context [flush ?pg ?p ?x] =>
      exists (fst (flush pg p x)), (snd (flush pg p x)) end.
    split; [now rewrite <- surjective_pairing|].
    rewrite (rest_track _ _ HR), (rest_find _ _ HR), (rest_tracked _ _ HR).
    ov_flush ltac:(rewrite ?Ho, ?Hsame').
    repeat split; reflexivity.
  - intros s el Hob Hq Ht. cbn [react].
    unfold on_mutation, findTarget. rewrite Hob, Hq.
    unfold set_observer, setTargetEl. ov_proj.
    rewrite Hd, Ht. cbn [same_el]. rewrite Nat.eqb_refl. cbn [negb orb].
    destruct c; cbn in *; subst; reflexivity.
Qed.

Lemma overlay_mutation_witness :
  let pg0 := demo_page false 0 in
  let pg := demo_page true 0 in
  let p := mkInput true "#b" in
  exists c f,
    session pg0 p [] = Ok (c, f) /\ observer c = Some "#b"%string /\
    exists c' f',
      react (Mutation pg) (c, f) = Ok (c', f') /\
      targetEl c' = Some 2%nat /\ observer c' = None.
Proof.
  intros pg0 pg p.
  assert (Hx : match session pg0 p [] with
               | Ok (c, _) => observer c = Some "#b"%string /\
                              targetEl c = None
               | Threw _ => False
               end) by (vm_compute; split; reflexivity).
  destruct (session pg0 p []) as [[c f]|] eqn:Hs; [|contradiction].
  destruct Hx as [Hob Ht]. exists c, f.
  split; [reflexivity|]. split; [exact Hob|].
  destruct (overlay_mutation pg0 p [] c f pg Hs) as (_ & _ & H & _).
  destruct (H "#b"%string 2%nat Hob eq_refl) as (c' & f' & H1 & H2 & _ & _ & H3 & _).
  { rewrite Ht. discriminate. }
  exists c', f'. repeat split; assumption.
Defined.

(** Without a MutationObserver a selector that matched nothing at the
    mount is never looked up again: whatever pages later batches of
    mutations give, the overlay stays as the mount left it and renders
    nothing. *)
Theorem overlay_degraded_never_resolves pg p pages :
  open p = true -> querySelector pg (targetSelector p) = NotFound ->
  hasMutationObserver pg = false ->
  session pg p (map Mutation pages) = mount pg p /\
  exists c f, mount pg p = Ok (c, f) /\ rect c = None /\
              forall w h, shown f w h = None.
Proof.
  intros Ho Hq Hm.
  destruct (ov_mount_not_found pg p Ho Hq)
    as (c & f & Hmt & Hr & _ & _ & _ & Hob & Hsh).
  rewrite Hm in Hob.
  split; [|exists c, f; auto].
  unfold session. rewrite Hmt. cbn [bind].
  assert (Hrest : Rest c f) by (eapply ov_mount_rest; eauto).
  induction pages as [|pg' pages IH]; [reflexivity|].
  cbn [map replay]. cbn [react]. unfold on_mutation.
  rewrite Hob, (rest_clean _ _ Hrest). cbn [bind]. exact IH.
Qed.

Lemma overlay_degraded_never_resolves_witness :
  let pg := mkPage (fun _ => NotFound)
                   (fun _ => HighlightTour.mkRect 0 0 0 0) false in
  let later := mkPage (fun _ => Found 1%nat)
                      (fun _ => HighlightTour.mkRect 0 0 0 0) false in
  let p := mkInput true "#late" in
  session pg p (map Mutation [later; later]) = mount pg p.
Proof.
  intros pg later p.
  exact (proj1 (overlay_degraded_never_resolves pg p [later; later]
                  eq_refl eq_refl eq_refl)).
Defined.

(** Scroll, resize and element-resize events.  While a target is held,
    each event measures it again on the page as it is then and renders
    from that rectangle; the target, the observer, the listeners and the
    calls made on the element are unchanged (it is not scrolled into view
    or focused again).  With no target the events change nothing. *)
Theorem overlay_geometry pg0 p es c f pg :
  session pg0 p es = Ok (c, f) ->
  (targetEl c = None -> react (Geometry pg) (c, f) = Ok (c, f)) /\
  (forall el, targetEl c = Some el ->
     exists c' f',
       react (Geometry pg) (c, f) = Ok (c', f') /\
       rect c' = Some (getBoundingClientRect pg el) /\
       f_rect f' = rect c' /\ input f' = input f /\
       targetEl c' = Some el /\ observer c' = observer c /\
       tracked c' = Some el /\ dom c' = dom c).
Proof.
  intros Hs. pose proof (ov_session_rest _ _ _ _ _ Hs) as HR.
  pose proof (rest_clean _ _ HR) as Hd.
  pose proof (rest_tracked _ _ HR) as Htr.
  split.
  - intros Ht. cbn [react]. unfold on_geometry.
    rewrite Htr, Ht. destruct (open (input f)); now rewrite Hd.
  - intros el Ht.
    assert (Ho : open (input f) = true).
    { destruct (open (input f)) eqn:Ho; [reflexivity|].
      destruct (rest_closed _ _ HR Ho) as (_ & Hn & _). congruence. }
    rewrite Ho, Ht in Htr.
    cbn [react]. unfold on_geometry, update, setRect. rewrite Htr.
    ov_proj. rewrite orb_true_r.
    rewrite ov_rerender_ok
      by (apply (ov_rest_throws pg c f _ HR); reflexivity).
    match goal with |- context [flush ?pg ?p ?x] =>
      exists (fst (flush pg p x)), (snd (flush pg p x)) end.
    split; [now rewrite <- surjective_pairing|].
    rewrite (rest_track _ _ HR), (rest_find _ _ HR), Ht.
    ov_flush ltac:(rewrite ?Ho).
    repeat split; reflexivity.
Qed.

Lemma overlay_geometry_witness :
  let pg0 := demo_page false 0 in
  let pg := demo_page false 10 in
  let p := mkInput true "#a" in
  exists c f,
    session pg0 p [] = Ok (c, f) /\ targetEl c = Some 1%nat /\
    exists c' f',
      react (Geometry pg) (c, f) = Ok (c', f') /\
      rect c' = Some (HighlightTour.mkRect (100 * inject_Z 1) (50 - 10) 80 20)
      /\ dom c' = dom c.
Proof.
  intros pg0 pg p.
  assert (Hx : match session pg0 p [] with
               | Ok (c, _) => targetEl c = Some 1%nat
               | Threw _ => False
               end) by (vm_compute; reflexivity).
  destruct (session pg0 p []) as [[c f]|] eqn:Hs; [|contradiction].
  exists c, f. split; [reflexivity|]. split; [exact Hx|].
  destruct (overlay_geometry pg0 p [] c f pg Hs) as (_ & H).
  destruct (H 1%nat Hx) as (c' & f' & H1 & H2 & _ & _ & _ & _ & _ & H3).
  exists c', f'. repeat split; assumption.
Defined.

(** Closing the overlay releases everything it acquired: whatever the
    session before and whatever the page, a render with [open] lowered
    drops the target and the rectangle, disconnects the observer, unbinds
    the listeners, renders nothing and makes no call on any element. *)
Theorem overlay_close_releases pg0 p es c f s pg :
  session pg0 p es = Ok (c, f) ->
  exists c' f',
    react (Render (mkInput false s) pg) (c, f) = Ok (c', f') /\
    rect c' = None /\ targetEl c' = None /\ observer c' = None /\
    tracked c' = None /\ dom c' = dom c /\
    forall w h, shown f' w h = None.
Proof.
  intros Hs. pose proof (ov_session_rest _ _ _ _ _ Hs) as HR.
  cbn [react].
  rewrite ov_rerender_ok by (unfold throws; cbn; now rewrite andb_false_r).
  exists (fst (flush pg (mkInput false s) c)),
         (snd (flush pg (mkInput false s) c)).
  split; [now rewrite <- surjective_pairing|].
  destruct (ov_rest_cells c f HR) as [Ec _].
  destruct (open (input f)) eqn:Ho.
  - rewrite (f_equal (flush pg (mkInput false s)) Ec).
    destruct (targetEl c) as [t|] eqn:Et, (rect c) as [r|] eqn:Er;
      ov_flush idtac; repeat split; reflexivity.
  - destruct (rest_closed _ _ HR Ho) as (Hr & Ht & Hob).
    rewrite (f_equal (flush pg (mkInput false s)) Ec), Hr, Ht, Hob.
    destruct (String.eqb (targetSelector (input f)) s) eqn:Es;
      ov_flush ltac:(rewrite ?Es); repeat split; reflexivity.
Qed.

Lemma overlay_close_releases_witness :
  let pg := demo_page false 0 in
  let p := mkInput true "#a" in
  exists c f,
    session pg p [] = Ok (c, f) /\ targetEl c = Some 1%nat /\
    exists c' f',
      react (Render (mkInput false "#a") pg) (c, f) = Ok (c', f') /\
      targetEl c' = None /\ tracked c' = None.
Proof.
  intros pg p.
  assert (Hx : match session pg p [] with
               | Ok (c, _) => targetEl c = Some 1%nat
               | Threw _ => False
               end) by (vm_compute; reflexivity).
  destruct (session pg p []) as [[c f]|] eqn:Hs; [|contradiction].
  exists c, f. split; [reflexivity|]. split; [exact Hx|].
  destruct (overlay_close_releases pg p [] c f "#a"%string pg Hs)
    as (c' & f' & H1 & _ & H2 & _ & H3 & _).
  exists c', f'. repeat split; assumption.
Defined.

(** A change of selector while a target is held.  When the lookup of the
    new selector returns no element, the previous target stays held,
    measured and rendered and no call is made on it; an observer is
    connected for the new selector when the page has one.  When it
    returns another element, that element becomes the target: it is
    scrolled into view, measured and focused, and the listeners move to
    it.  When the new selector is not valid, the lookup throws and the
    render does not complete. *)
Theorem overlay_selector_change pg0 p es c f el s pg :
  session pg0 p es = Ok (c, f) -> targetEl c = Some el ->
  s <> targetSelector (input f) ->
  (querySelector pg s = NotFound ->
   exists c' f',
     react (Render (mkInput true s) pg) (c, f) = Ok (c', f') /\
     targetEl c' = Some el /\ rect c' = rect c /\ f_rect f' = rect c /\
     tracked c' = Some el /\ dom c' = dom c /\
     observer c' = (if hasMutationObserver pg then Some s else None)) /\
  (forall el', querySelector pg s = Found el' -> el' <> el ->
   exists c' f',
     react (Render (mkInput true s) pg) (c, f) = Ok (c', f') /\
     targetEl c' = Some el' /\
     rect c' = Some (getBoundingClientRect pg el') /\ f_rect f' = rect c' /\
     tracked c' = Some el' /\ observer c' = None /\
     dom c' = dom c ++ [ScrollIntoView el'; Focus el']) /\
  (querySelector pg s = Invalid ->
   react (Render (mkInput true s) pg) (c, f) = Threw (SyntaxError s)).
Proof.
  intros Hs Ht Hne. pose proof (ov_session_rest _ _ _ _ _ Hs) as HR.
  assert (Ho : open (input f) = true).
  { destruct (open (input f)) eqn:Ho; [reflexivity|].
    destruct (rest_closed _ _ HR Ho) as (_ & Hn & _). congruence. }
  assert (Es : String.eqb (targetSelector (input f)) s = false).
  { apply String.eqb_neq. congruence. }
  destruct (ov_rest_cells c f HR) as [Ec _]. rewrite Ho, Ht in Ec.
  split; [|split].
  - intros Hq. cbn [react].
    rewrite ov_rerender_ok by ov_no_throw ltac:(rewrite ?Hq).
    exists (fst (flush pg (mkInput true s) c)),
           (snd (flush pg (mkInput true s) c)).
    split; [now rewrite <- surjective_pairing|].
    rewrite (f_equal (flush pg (mkInput true s)) Ec).
    ov_flush ltac:(rewrite ?Es, ?Hq).
    destruct (hasMutationObserver pg); repeat split; reflexivity.
  - intros el' Hq Hel.
    assert (En : Nat.eqb el' el = false) by now apply Nat.eqb_neq.
    assert (En' : Nat.eqb el el' = false)
      by (apply Nat.eqb_neq; congruence).
    cbn [react].
    rewrite ov_rerender_ok by ov_no_throw ltac:(rewrite ?Hq).
    exists (fst (flush pg (mkInput true s) c)),
           (snd (flush pg (mkInput true s) c)).
    split; [now rewrite <- surjective_pairing|].
    rewrite (f_equal (flush pg (mkInput true s)) Ec).
    ov_flush ltac:(rewrite ?Es, ?Hq, ?En, ?En').
    repeat split; reflexivity.
  - intros Hq. cbn [react]. rewrite ov_rerender_flush.
    replace (throws pg (mkInput true s) c) with true; [reflexivity|].
    symmetry. apply ov_throws_cases. cbn. repeat split; [|exact Hq].
    unfold ran_find. rewrite (rest_find _ _ HR). cbn.
    unfold same_find. cbn. now rewrite Ho, Es.
Qed.

Lemma overlay_selector_change_witness :
  let pg := demo_page false 0 in
  let p := mkInput true "#a" in
  exists c f,
    session pg p [] = Ok (c, f) /\ targetEl c = Some 1%nat /\
    exists c' f',
      react (Render (mkInput true "#b") pg) (c, f) = Ok (c', f') /\
      targetEl c' = Some 1%nat /\ observer c' = Some "#b"%string.
Proof.
  intros pg p.
  assert (Hx : match session pg p [] with
               | Ok (c, f) => targetEl c = Some 1%nat /\
                              targetSelector (input f) = "#a"%string
               | Threw _ => False
               end) by (vm_compute; split; reflexivity).
  destruct (session pg p []) as [[c f]|] eqn:Hs; [|contradiction].
  destruct Hx as [Ht Hsel].
  exists c, f. split; [reflexivity|]. split; [exact Ht|].
  destruct (overlay_selector_change pg p [] c f 1%nat "#b"%string pg Hs Ht)
    as (H & _).
  { rewrite Hsel. discriminate. }
  destruct (H eq_refl) as (c' & f' & H1 & H2 & _ & _ & _ & _ & H3).
  exists c', f'. repeat split; assumption.
Defined.

End OverlayFacts.

(** * The scroll lock *)

Module ScrollLockFacts.
Import ScrollLock.

Lemma commit_unlocked v (o : bool) c :
  unlocked v c ->
  if o then locked v (commit o c) else unlocked v (commit o c).
Proof.
  intros (H1 & H2 & H3). destruct c as [ov cl d]; cbn in *; subst.
  unfold commit, effect, run_cleanup, locked, unlocked; cbn.
  destruct d as [[]|]; destruct o; cbn; repeat split; try congruence.
Qed.

Lemma commit_locked v (o : bool) c :
  locked v c ->
  if o then locked v (commit o c) else unlocked v (commit o c).
Proof.
  intros (H1 & H2 & H3). destruct c as [ov cl d]; cbn in *; subst.
  unfold commit, effect, run_cleanup, locked, unlocked; cbn.
  destruct o; cbn; repeat split; try congruence.
Qed.

Lemma replay_app es es' c : replay (es ++ es') c = replay es' (replay es c).
Proof. apply fold_left_app. Qed.

(** The lock follows [open].  From a released lock and with no other
    writer of the style, after any sequence of renders the style is
    "hidden" exactly while the last render had [open] raised, the page's
    own style is back otherwise, and an unmount restores it in both
    cases: renders that keep [open] raised do not capture "hidden" as the
    style to restore. *)
Theorem scroll_lock_follows_open v c opens :
  unlocked v c ->
  let c' := replay (map Render opens) c in
  (if last opens false then locked v c' else unlocked v c') /\
  overflow (unmount c') = v.
Proof.
  intros Hu. cbn zeta.
  assert (H : if last opens false
              then locked v (replay (map Render opens) c)
              else unlocked v (replay (map Render opens) c)).
  { induction opens as [|o opens IH] using rev_ind; [exact Hu|].
    rewrite map_app, replay_app, last_last. cbn [map replay fold_left react].
    destruct (last opens false).
    - now apply commit_locked.
    - now apply commit_unlocked. }
  split; [exact H|].
  unfold unmount, run_cleanup.
  destruct (last opens false).
  - destruct H as (_ & -> & _). reflexivity.
  - destruct H as (<- & -> & _). reflexivity.
Qed.

Lemma scroll_lock_follows_open_witness :
  let c := replay (map Render [true; true; false; true]) (mkCells "auto" None None) in
  overflow c = "hidden"%string /\ overflow (unmount c) = "auto"%string.
Proof.
  intros c.
  destruct (scroll_lock_follows_open "auto" (mkCells "auto" None None)
              [true; true; false; true]) as [H1 H2].
  { repeat split. discriminate. }
  cbn [last] in H1. destruct H1 as (H1 & _). split; assumption.
Defined.

(** Closing restores the style read at the opening.  From a released
    lock, an opening followed by any renders that keep [open] raised and
    any writes of the style by other code, and then a close, leaves the
    style as it was before the opening: what was written meanwhile is
    overwritten. *)
Theorem scroll_lock_round_trip v c es :
  unlocked v c -> forallb keeps_open es = true ->
  locked v (react (Render true) c) /\
  unlocked v (replay (Render true :: es ++ [Render false]) c).
Proof.
  intros Hu Hk.
  pose proof (commit_unlocked v true c Hu) as Hl. cbn in Hl.
  split; [exact Hl|].
  cbn [replay fold_left]. fold (replay (es ++ [Render false]) (react (Render true) c)).
  rewrite replay_app. cbn [react].
  assert (H : cleanup (replay es (commit true c)) = Some v /\
              deps (replay es (commit true c)) = Some true).
  { destruct Hl as (_ & Hc & Hd). revert Hc Hd.
    generalize (commit true c) as c1. clear Hu.
    induction es as [|e es IH]; intros c1 Hc Hd; [now split|].
    cbn in Hk. apply andb_true_iff in Hk. destruct Hk as [He Hk].
    cbn [replay fold_left]. fold (replay es (react e c1)).
    apply (IH Hk).
    - destruct e as [o|w]; cbn in *; [|exact Hc].
      subst o. unfold commit. now rewrite Hd.
    - destruct e as [o|w]; cbn in *; [|exact Hd].
      subst o. unfold commit. now rewrite Hd. }
  destruct H as [Hc Hd].
  destruct (replay es (commit true c)) as [ov cl d]; cbn in *; subst.
  unfold commit, unlocked, effect, run_cleanup; cbn.
  repeat split. discriminate.
Qed.

Lemma scroll_lock_round_trip_witness :
  let c := mkCells "scroll" None (Some false) in
  overflow (replay [Render true; Write "visible"; Render true; Render false] c)
  = "scroll"%string.
Proof.
  intros c.
  destruct (scroll_lock_round_trip "scroll" c
              [Write "visible"; Render true]) as (_ & H & _).
  { repeat split. discriminate. }
  { reflexivity. }
  exact H.
Defined.

End ScrollLockFacts.

(** * The keyboard listener and the placement of the tooltip *)

Module HighlightTourFacts.
Import HighlightTour.

(** The keyboard listener of HighlightTour.  A key event invokes a handler
    exactly in these cases, all of them while [open] is raised: Escape
    invokes [onClose]; ArrowRight invokes [onNext] when one is given;
    ArrowLeft invokes [onPrev] when one is given.  The default handling
    of the key is suppressed exactly when a handler is invoked; every
    other key, and every key while [open] is lowered, is left alone. *)
Theorem keydown_characterised {H} (p : Props H) (key : string) (h : H) :
  (invoked (keydown p key) = Some h <->
   open p = true /\
   (key = "Escape"%string /\ h = onClose p \/
    key = "ArrowRight"%string /\ onNext p = Some h \/
    key = "ArrowLeft"%string /\ onPrev p = Some h)) /\
  (preventDefault (keydown p key) = true <-> invoked (keydown p key) <> None).
Proof.
  unfold keydown, handleKey.
  destruct (open p); cbn [negb].
  2:{ cbn. split; split; try discriminate; try congruence.
      intros [? _]; discriminate. }
  destruct (String.eqb_spec key "Escape") as [->|HE].
  { cbn. split; split; try discriminate; try reflexivity.
    - intros [= <-]. split; [reflexivity|]. left. now split.
    - intros (_ & [[_ ->]|[[E _]|[E _]]]); [reflexivity|discriminate E..]. }
  destruct (String.eqb_spec key "ArrowRight") as [->|HR].
  { cbn [String.eqb Ascii.eqb Bool.eqb].
    destruct (onNext p) as [n|] eqn:Hn; cbn.
    - split; split; try discriminate; try reflexivity.
      + intros [= <-]. split; [reflexivity|]. right; left. now split.
      + intros (_ & [[E _]|[[_ [= ->]]|[E _]]]); [discriminate E|reflexivity|discriminate E].
    - split; split; try discriminate; try congruence.
      intros (_ & [[E _]|[[_ E]|[E _]]]); discriminate E. }
  destruct (String.eqb_spec key "ArrowLeft") as [->|HL].
  { destruct (onPrev p) as [b|] eqn:Hb; cbn.
    - split; split; try discriminate; try reflexivity.
      + intros [= <-]. split; [reflexivity|]. right; right. now split.
      + intros (_ & [[E _]|[[E _]|[_ [= ->]]]]); [discriminate E..|reflexivity].
    - split; split; try discriminate; try congruence.
      intros (_ & [[E _]|[[E _]|[_ E]]]); discriminate E. }
  cbn.
  split; split; try discriminate; try congruence.
  intros (_ & [[E1 _]|[[E1 _]|[E1 _]]]); contradiction.
Qed.

(** Where there is room the tooltip is left-aligned with the target: the
    horizontal position is the left edge of the target when that edge
    lies in [16, viewportWidth - 320], and 16 when the edge is at or left
    of 16.  Both are selections by [min] and [max]: no sum is
    involved. *)
Theorem tooltip_left_follows_target (rect : DOMRect) (viewportWidth : Q) :
  ((16 <= left rect)%Q -> (left rect <= viewportWidth - 320)%Q ->
   (tooltipLeft rect viewportWidth == left rect)%Q) /\
  ((left rect <= 16)%Q -> (tooltipLeft rect viewportWidth == 16)%Q).
Proof.
  unfold tooltipLeft. split.
  - intros H1 H2. rewrite (Q.max_l (left rect) 16) by exact H1.
    apply Q.min_l. eapply Qle_trans; [exact H2|apply Q.le_max_r].
  - intros H1. rewrite (Q.max_r (left rect) 16) by exact H1.
    apply Q.min_l. apply Q.le_max_l.
Qed.

Lemma tooltip_left_follows_target_witness :
  (tooltipLeft (mkRect 200 100 50 40) 1280 == 200)%Q /\
  (tooltipLeft (mkRect 3 100 50 40) 1280 == 16)%Q.
Proof.
  split.
  - apply (proj1 (tooltip_left_follows_target (mkRect 200 100 50 40) 1280)).
    + vm_compute; discriminate.
    + vm_compute; discriminate.
  - apply (proj2 (tooltip_left_follows_target (mkRect 3 100 50 40) 1280)).
    vm_compute; discriminate.
Defined.

(** The vertical position has no lower bound: it is clamped from above by
    [viewportHeight - 160] alone, so in a viewport less than 160 high it
    is negative, that is above the top of the viewport, wherever the
    target is. *)
Theorem tooltip_top_not_clamped_above (rect : DOMRect) (viewportHeight : Q) :
  (viewportHeight < 160)%Q ->
  (tooltipTop rect viewportHeight < 0)%Q.
Proof.
  intros H. unfold tooltipTop.
  eapply Qle_lt_trans; [apply Q.le_min_r|]. lra.
Qed.

Lemma tooltip_top_not_clamped_above_witness :
  (tooltipTop (mkRect 10 10 100 20) 100 < 0)%Q.
Proof.
  apply (tooltip_top_not_clamped_above (mkRect 10 10 100 20) 100).
  vm_compute. reflexivity.
Defined.

End HighlightTourFacts.
